(** * Valetudo: the MQTT bridge ([lib/MqttClient.js]) and the miio codec

    A shallow embedding of [MqttClient] (the Home Assistant state table, the
    connection guard, the command dispatchers, the state publisher and the
    self-rescheduling attribute aggregator) and of [Codec.handleResponse].

    JavaScript values are a first-order data type, objects are association
    lists in property order, promises are defunctionalised into the list of
    pending reactions of the world, and every observable action (a publish, a
    device call, a timer, a log line) is appended to a trace. *)

From stdpp Require Import base strings list gmap pretty.
From Stdlib Require Import ZArith Ascii String.
From Stdlib.Strings Require Import Byte.

#[local] Set Warnings "-register-all".

Open Scope Z_scope.
Open Scope string_scope.

(** ** JavaScript values *)

(** Numbers are the integers the device reports; fractions, NaN and the
    infinities are not represented. Objects list their own properties in
    insertion order, with distinct keys. *)
Inductive jsval : Type :=
  | VUndef
  | VNull
  | VBool (b : bool)
  | VNum (n : Z)
  | VStr (s : string)
  | VArr (xs : list jsval)
  | VObj (fields : list (string * jsval)).

Fixpoint assoc {A : Type} (k : string) (fs : list (string * A)) : option A :=
  match fs with
  | [] => None
  | (k', v) :: rest => if String.eqb k k' then Some v else assoc k rest
  end.

(** ToBoolean. *)
Definition truthy (v : jsval) : bool :=
  match v with
  | VUndef | VNull => false
  | VBool b => b
  | VNum n => negb (n =? 0)%Z
  | VStr s => negb (String.eqb s "")
  | VArr _ | VObj _ => true
  end.

(** [a === b] between a value that was just parsed or received and a value
    held elsewhere: primitives compare by type and value, two objects or two
    arrays are different references. [Array.prototype.includes] uses the same
    comparison on the values represented here. *)
Definition strict_eq (a b : jsval) : bool :=
  match a, b with
  | VUndef, VUndef => true
  | VNull, VNull => true
  | VBool x, VBool y => Bool.eqb x y
  | VNum x, VNum y => (x =? y)%Z
  | VStr x, VStr y => String.eqb x y
  | _, _ => false
  end.

Definition includes (xs : list jsval) (v : jsval) : bool :=
  existsb (fun x => strict_eq x v) xs.

(** [v[k]] for a string key; [None] is the TypeError raised on [undefined]
    and [null]. Inherited properties are not represented. *)
Definition get_prop (v : jsval) (k : string) : option jsval :=
  match v with
  | VUndef | VNull => None
  | VObj fs => Some (default VUndef (assoc k fs))
  | VArr xs =>
      Some (if String.eqb k "length" then VNum (Z.of_nat (List.length xs)) else VUndef)
  | VStr s =>
      Some (if String.eqb k "length" then VNum (Z.of_nat (String.length s)) else VUndef)
  | VBool _ | VNum _ => Some VUndef
  end.

(** [v[i]] for an index. *)
Definition get_index (v : jsval) (i : nat) : option jsval :=
  match v with
  | VUndef | VNull => None
  | VArr xs => Some (default VUndef (xs !! i))
  | VStr s =>
      Some (match String.get i s with
            | Some c => VStr (String c EmptyString)
            | None => VUndef
            end)
  | VObj fs => Some (default VUndef (assoc (pretty i) fs))
  | VBool _ | VNum _ => Some VUndef
  end.

(** ** JSON.stringify *)

Definition hex_digit (n : nat) : ascii :=
  ascii_of_nat (if Nat.ltb n 10 then 48 + n else 87 + n).

Definition dquote : string := String (ascii_of_nat 34) EmptyString.
Definition backslash : string := String (ascii_of_nat 92) EmptyString.

Definition escape_char (c : ascii) : string :=
  let n := nat_of_ascii c in
  if Nat.eqb n 34 then backslash ++ dquote
  else if Nat.eqb n 92 then backslash ++ backslash
  else if Nat.eqb n 8 then backslash ++ "b"
  else if Nat.eqb n 9 then backslash ++ "t"
  else if Nat.eqb n 10 then backslash ++ "n"
  else if Nat.eqb n 12 then backslash ++ "f"
  else if Nat.eqb n 13 then backslash ++ "r"
  else if Nat.ltb n 32 then
    backslash ++ "u00" ++
      String (hex_digit (Nat.div n 16)) (String (hex_digit (Nat.modulo n 16)) EmptyString)
  else String c EmptyString.

Fixpoint escape (s : string) : string :=
  match s with
  | EmptyString => EmptyString
  | String c rest => escape_char c ++ escape rest
  end.

Definition quote (s : string) : string := dquote ++ escape s ++ dquote.

(** [None] is the [undefined] that [JSON.stringify(undefined)] returns. Inside
    an object a property whose value is [undefined] is left out; inside an
    array it is written [null]. *)
Fixpoint stringify (v : jsval) : option string :=
  match v with
  | VUndef => None
  | VNull => Some "null"
  | VBool true => Some "true"
  | VBool false => Some "false"
  | VNum n => Some (pretty n)
  | VStr s => Some (quote s)
  | VArr xs =>
      let fix elems (first : bool) (l : list jsval) : string :=
        match l with
        | [] => ""
        | x :: rest =>
            (if first then "" else ",") ++ default "null" (stringify x)
              ++ elems false rest
        end in
      Some ("[" ++ elems true xs ++ "]")
  | VObj fs =>
      let fix props (first : bool) (l : list (string * jsval)) : string :=
        match l with
        | [] => ""
        | (k, x) :: rest =>
            match stringify x with
            | None => props first rest
            | Some s => (if first then "" else ",") ++ quote k ++ ":" ++ s
                          ++ props false rest
            end
        end in
      Some ("{" ++ props true fs ++ "}")
  end.

(** The serialisation of an object or array, which is always a string. *)
Definition stringify_str (v : jsval) : string := default "undefined" (stringify v).

(** ** The state tables of MqttClient.js *)

Module HA_STATES.
Definition CLEANING : string := "cleaning".
Definition PAUSED : string := "paused".
Definition IDLE : string := "idle".
Definition RETURNING : string := "returning".
Definition DOCKED : string := "docked".
Definition ERROR : string := "error".
Definition ZONE_CLEANUP : string := "cleaning".
End HA_STATES.

Definition HA_STATE_MAPPINGS : gmap string string :=
  list_to_map
    [ ("CHARGER_DISCONNECTED", HA_STATES.IDLE);
      ("IDLE", HA_STATES.IDLE);
      ("CLEANING", HA_STATES.CLEANING);
      ("MANUAL_MODE", HA_STATES.CLEANING);
      ("SPOT_CLEANING", HA_STATES.CLEANING);
      ("GOING_TO_TARGET", HA_STATES.CLEANING);
      ("ZONED_CLEANING", HA_STATES.ZONE_CLEANUP);
      ("RETURNING_HOME", HA_STATES.RETURNING);
      ("DOCKING", HA_STATES.RETURNING);
      ("CHARGING", HA_STATES.DOCKED);
      ("CHARGING_PROBLEM", HA_STATES.ERROR);
      ("ERROR", HA_STATES.ERROR);
      ("PAUSED", HA_STATES.PAUSED) ].

(** The six states of the Home Assistant vacuum vocabulary. *)
Definition standardized_states : list string :=
  [ "cleaning"; "paused"; "idle"; "returning"; "docked"; "error" ].

(** [HA_STATE_MAPPINGS[code]] for a string code. *)
Definition mapState (code : string) : option string := HA_STATE_MAPPINGS !! code.

(** ToPropertyKey on the values represented here: a string is its own key,
    the other values are converted with ToString. *)
Fixpoint to_property_key (v : jsval) : string :=
  match v with
  | VUndef => "undefined"
  | VNull => "null"
  | VBool true => "true"
  | VBool false => "false"
  | VNum n => pretty n
  | VStr s => s
  | VArr xs =>
      let fix join (first : bool) (l : list jsval) : string :=
        match l with
        | [] => ""
        | x :: rest =>
            (if first then "" else ",") ++
            match x with VUndef | VNull => "" | _ => to_property_key x end
            ++ join false rest
        end in
      join true xs
  | VObj _ => "[object Object]"
  end.

(** [HA_STATE_MAPPINGS[v]] as a JavaScript value; a missing entry is
    [undefined]. *)
Definition ha_state_of (v : jsval) : jsval :=
  match mapState (to_property_key v) with
  | Some s => VStr s
  | None => VUndef
  end.

Definition FAN_SPEEDS : list (string * Z) :=
  [ ("min", 38); ("medium", 60); ("high", 75); ("max", 100); ("mop", 105) ].

(** ** The environment of the client

    What the bridge uses and this file does not define: the arithmetic of
    JavaScript numbers (floating point division and [toFixed]), the error
    table of the Roborock module, [JSON.parse], and the configuration the
    constructor reads. The configuration values are the ones the constructor
    stores, after its defaults. *)

Record Zone := { zone_id : jsval; zone_name : jsval }.

Record Env := {
  (** [(x / 60 / 60).toFixed(1)] *)
  div3600_fixed1 : jsval → string;
  (** [(x / 1000000).toFixed(1)] *)
  div1e6_fixed1 : jsval → string;
  (** [(Math.max(0, limit - (x / 60 / 60))).toFixed(1)] *)
  remaining_fixed1 : Z → jsval → string;
  (** [x * 1000] *)
  times1000 : jsval → jsval;
  parseInt : jsval → jsval;
  (** [x > 0] for a string, an array or an object, which ToNumber converts *)
  coerced_gt_zero : jsval → bool;
  GET_ERROR_CODE_DESCRIPTION : jsval → jsval;
  JSON_parse : string → option jsval;
  brokerURL : string;
  identifier : string;
  topicPrefix : string;
  autoconfPrefix : string;
  attributesUpdateInterval : Z;
  provideMapData : bool;
  caPath : string;
  qos : Z;
  manufacturerName : string;
  modelName : string;
  (** [[...this.configuration.getZones().values()]], in insertion order *)
  getZones : list Zone;
  (** [this.configuration.get("spots")] *)
  spots : list jsval
}.

(** ** Effects, promises and the world *)

Inductive DeviceOp : Type :=
  | startCleaning
  | stopCleaning
  | pauseCleaning
  | spotClean
  | findRobot
  | driveHome
  | resumeCleaningZone
  | goTo (x y : jsval)
  | startCleaningZonesById (zone_ids : list jsval)
  | setFanSpeed (level : jsval)
  | getCurrentStatus
  | getConsumableStatus
  | getCleanSummary
  | getCleanRecord (recordId : jsval).

Inductive Effect : Type :=
  | MqttConnect (url ca : string)
  | Subscribe (topics : list string) (q : Z)
  | Publish (topic payload : string) (retain : bool) (q : Z)
  | Call (op : DeviceOp)
  | SetTimeout (timer : nat) (delay : Z)
  | ClearTimeout (timer : nat)
  | LogError
  | LogInfo (msg : string).

(** The reactions the code attaches to the promises of the device: the
    closures of [.then] and [.catch], with what they capture. A call whose
    promise gets no reaction leaves nothing pending. *)
Inductive Reaction : Type :=
  | OnConsumableStatus
  | OnCleanSummary (res : jsval)
  | OnCleanRecord
  | OnCurrentStatus
  | OnStopped
  | OnZonesStarted.

Inductive Settled : Type :=
  | Resolve (value : jsval)
  | Reject (err : jsval).

(** The fields of the mqtt.js client the code reads. *)
Record ClientHandle := { connected : jsval; reconnecting : jsval }.

Record World := {
  client : option ClientHandle;
  last_ha_state : jsval;
  last_state : jsval;
  last_attributes : jsval;
  last_run_stats : jsval;
  attributesUpdateTimeout : option nat;
  (** what [this.vacuum.getZoneCleaningStatus()] returns at this moment *)
  zoneCleaningStatus : jsval;
  (** the timers that are set and have neither fired nor been cleared *)
  timers : list nat;
  (** the promises of the device that have not settled, with their reaction *)
  promises : list (nat * Reaction);
  next_id : nat;
  trace : list Effect
}.

Definition emit (e : Effect) (w : World) : World :=
  {| client := client w; last_ha_state := last_ha_state w; last_state := last_state w;
     last_attributes := last_attributes w; last_run_stats := last_run_stats w;
     attributesUpdateTimeout := attributesUpdateTimeout w;
     zoneCleaningStatus := zoneCleaningStatus w; timers := timers w;
     promises := promises w; next_id := next_id w;
     trace := (trace w ++ [e])%list |}.

Definition set_client (c : option ClientHandle) (w : World) : World :=
  {| client := c; last_ha_state := last_ha_state w; last_state := last_state w;
     last_attributes := last_attributes w; last_run_stats := last_run_stats w;
     attributesUpdateTimeout := attributesUpdateTimeout w;
     zoneCleaningStatus := zoneCleaningStatus w; timers := timers w;
     promises := promises w; next_id := next_id w; trace := trace w |}.

Definition set_last_states (ha st : jsval) (w : World) : World :=
  {| client := client w; last_ha_state := ha; last_state := st;
     last_attributes := last_attributes w; last_run_stats := last_run_stats w;
     attributesUpdateTimeout := attributesUpdateTimeout w;
     zoneCleaningStatus := zoneCleaningStatus w; timers := timers w;
     promises := promises w; next_id := next_id w; trace := trace w |}.

Definition set_last_attributes (a : jsval) (w : World) : World :=
  {| client := client w; last_ha_state := last_ha_state w; last_state := last_state w;
     last_attributes := a; last_run_stats := last_run_stats w;
     attributesUpdateTimeout := attributesUpdateTimeout w;
     zoneCleaningStatus := zoneCleaningStatus w; timers := timers w;
     promises := promises w; next_id := next_id w; trace := trace w |}.

Definition set_last_run_stats (r : jsval) (w : World) : World :=
  {| client := client w; last_ha_state := last_ha_state w; last_state := last_state w;
     last_attributes := last_attributes w; last_run_stats := r;
     attributesUpdateTimeout := attributesUpdateTimeout w;
     zoneCleaningStatus := zoneCleaningStatus w; timers := timers w;
     promises := promises w; next_id := next_id w; trace := trace w |}.

Definition set_zoneCleaningStatus (z : jsval) (w : World) : World :=
  {| client := client w; last_ha_state := last_ha_state w; last_state := last_state w;
     last_attributes := last_attributes w; last_run_stats := last_run_stats w;
     attributesUpdateTimeout := attributesUpdateTimeout w;
     zoneCleaningStatus := z; timers := timers w;
     promises := promises w; next_id := next_id w; trace := trace w |}.

Definition set_promises (ps : list (nat * Reaction)) (w : World) : World :=
  {| client := client w; last_ha_state := last_ha_state w; last_state := last_state w;
     last_attributes := last_attributes w; last_run_stats := last_run_stats w;
     attributesUpdateTimeout := attributesUpdateTimeout w;
     zoneCleaningStatus := zoneCleaningStatus w; timers := timers w;
     promises := ps; next_id := next_id w; trace := trace w |}.

Definition set_timers (h : option nat) (ts : list nat) (w : World) : World :=
  {| client := client w; last_ha_state := last_ha_state w; last_state := last_state w;
     last_attributes := last_attributes w; last_run_stats := last_run_stats w;
     attributesUpdateTimeout := h;
     zoneCleaningStatus := zoneCleaningStatus w; timers := ts;
     promises := promises w; next_id := next_id w; trace := trace w |}.

Definition bump (w : World) : World :=
  {| client := client w; last_ha_state := last_ha_state w; last_state := last_state w;
     last_attributes := last_attributes w; last_run_stats := last_run_stats w;
     attributesUpdateTimeout := attributesUpdateTimeout w;
     zoneCleaningStatus := zoneCleaningStatus w; timers := timers w;
     promises := promises w; next_id := S (next_id w); trace := trace w |}.

(** A device call whose promise gets a reaction. *)
Definition call_then (op : DeviceOp) (r : Reaction) (w : World) : World :=
  bump (set_promises (promises w ++ [(next_id w, r)])%list (emit (Call op) w)).

(** A device call whose promise is dropped. *)
Definition call_ (op : DeviceOp) (w : World) : World := emit (Call op) w.

(** ** A state monad with exceptions

    [None] is a thrown exception; the world keeps what was done before the
    throw. *)
Definition M (A : Type) : Type := World → World * option A.

Definition ret {A} (a : A) : M A := fun w => (w, Some a).
Definition bind {A B} (m : M A) (k : A → M B) : M B :=
  fun w => match m w with
           | (w', Some a) => k a w'
           | (w', None) => (w', None)
           end.
Definition lift {A} (o : option A) : M A := fun w => (w, o).
Definition act (f : World → World) : M unit := fun w => (f w, Some tt).
Definition read {A} (f : World → A) : M A := fun w => (w, Some (f w)).
Definition when (b : bool) (m : M unit) : M unit := if b then m else ret tt.

(** [try { m } catch { h }], and a promise reaction followed by [.catch(h)]. *)
Definition catch (m : M unit) (h : World → World) : World → World :=
  fun w => match m w with
           | (w', Some _) => w'
           | (w', None) => h w'
           end.

(** An exception nobody catches: the handler stops where it threw. *)
Definition run (m : M unit) : World → World := fun w => fst (m w).

Notation "x <~ m ; k" := (bind m (fun x => k))
  (at level 20, m at level 100, k at level 200, only parsing).
Notation "'exec' m ; k" := (bind m (fun _ => k))
  (at level 20, m at level 100, k at level 200, only parsing).

(** ** MqttClient *)

Section MqttClient.
Variable env : Env.

(** *** Topics and the discovery descriptor (constructor) *)

Definition topics_command : string :=
  topicPrefix env ++ "/" ++ identifier env ++ "/command".
Definition topics_set_fan_speed : string :=
  topicPrefix env ++ "/" ++ identifier env ++ "/set_fan_speed".
Definition topics_send_command : string :=
  topicPrefix env ++ "/" ++ identifier env ++ "/custom_command".
Definition topics_state : string :=
  topicPrefix env ++ "/" ++ identifier env ++ "/state".
Definition topics_map_data : string :=
  topicPrefix env ++ "/" ++ identifier env ++ "/map_data".
Definition topics_attributes : string :=
  topicPrefix env ++ "/" ++ identifier env ++ "/attributes".
Definition topics_homeassistant_autoconf_vacuum : string :=
  autoconfPrefix env ++ "/vacuum/" ++ topicPrefix env ++ "_" ++ identifier env
    ++ "/config".

Definition autoconf_payloads_vacuum : jsval :=
  VObj
    [ ("name", VStr (identifier env));
      ("unique_id", VStr (identifier env));
      ("device",
        VObj [ ("manufacturer", VStr (manufacturerName env));
               ("model", VStr (modelName env));
               ("name", VStr (identifier env));
               ("identifiers", VArr [VStr (identifier env)]) ]);
      ("schema", VStr "state");
      ("supported_features",
        VArr (map VStr [ "start"; "pause"; "stop"; "return_home"; "battery";
                         "status"; "locate"; "clean_spot"; "fan_speed";
                         "send_command" ]));
      ("command_topic", VStr topics_command);
      ("state_topic", VStr topics_state);
      ("set_fan_speed_topic", VStr topics_set_fan_speed);
      ("fan_speed_list", VArr (map (fun kv => VStr (fst kv)) FAN_SPEEDS));
      ("send_command_topic", VStr topics_send_command);
      ("json_attributes_topic", VStr topics_attributes) ].

(** The fields the constructor sets before it calls [connect]; [z] is the
    zone status of the device at that time. *)
Definition initial (z : jsval) : World :=
  {| client := None;
     last_ha_state := VStr HA_STATES.IDLE;
     last_state := VStr "UNKNOWN";
     last_attributes := VObj [];
     last_run_stats := VUndef;
     attributesUpdateTimeout := None;
     zoneCleaningStatus := z;
     timers := [];
     promises := [];
     next_id := 0;
     trace := [] |}.

(** *** connect *)

(** [!this.client || (this.client && this.client.connected === false &&
    this.client.reconnecting === false)] *)
Definition should_connect (w : World) : bool :=
  match client w with
  | None => true
  | Some c =>
      strict_eq (connected c) (VBool false)
      && strict_eq (reconnecting c) (VBool false)
  end.

(** [fresh] is the handle [mqtt.connect] returns. Reading the CA file is
    part of the connect attempt. *)
Definition connect (fresh : ClientHandle) (w : World) : World :=
  if should_connect w
  then emit (MqttConnect (brokerURL env) (caPath env)) (set_client (Some fresh) w)
  else w.

(** The listener of the client's "connect" event. *)
Definition on_connect (w : World) : World :=
  emit (Subscribe [topics_command; topics_set_fan_speed; topics_send_command] (qos env))
    (emit (LogInfo "Connected successfully to mqtt server") w).

(** The callback of [subscribe]. *)
Definition on_subscribed (err : jsval) (w : World) : World :=
  if negb (truthy err)
  then emit (Publish topics_homeassistant_autoconf_vacuum
               (stringify_str autoconf_payloads_vacuum) true (qos env)) w
  else emit LogError w.

(** [this.client && this.client.connected === true] *)
Definition is_connected (w : World) : bool :=
  match client w with
  | None => false
  | Some c => strict_eq (connected c) (VBool true)
  end.

(** *** Timers *)

Definition clearTimeout (t : nat) (w : World) : World :=
  emit (ClearTimeout t)
    (set_timers (attributesUpdateTimeout w)
       (filter (fun t' => t' ≠ t) (timers w)) w).

(** [this.attributesUpdateTimeout = setTimeout(() =>
    this.updateAttributesTopic(), this.attributesUpdateInterval)] *)
Definition schedule (w : World) : World :=
  let t := next_id w in
  bump (emit (SetTimeout t (attributesUpdateInterval env))
          (set_timers (Some t) (timers w ++ [t])%list w)).

(** *** updateStatusTopic *)

Definition find_fan_speed (fan_power : jsval) : jsval :=
  match List.find (fun kv => strict_eq (VNum (snd kv)) fan_power) FAN_SPEEDS with
  | Some kv => VStr (fst kv)
  | None => VUndef
  end.

Definition updateStatusTopic (statusData : jsval) : M unit :=
  c <~ read is_connected ;
  if c then
    battery <~ lift (get_prop statusData "battery") ;
    if negb (strict_eq battery VUndef) then
      st <~ lift (get_prop statusData "state") ;
      fan_power <~ lift (get_prop statusData "fan_power") ;
      error_code <~ lift (get_prop statusData "error_code") ;
      let response :=
        ([ ("state", ha_state_of st);
           ("battery_level", battery);
           ("fan_speed", find_fan_speed fan_power) ]
         ++ (if negb (strict_eq error_code VUndef)
                && negb (strict_eq error_code (VNum 0))
             then [("error", GET_ERROR_CODE_DESCRIPTION env error_code)]
             else []))%list in
      act (emit (Publish topics_state (stringify_str (VObj response)) true (qos env)))
    else ret tt
  else ret tt.

(** *** updateAttributesTopic *)

Definition updateAttributesTopic (w : World) : World :=
  let w1 := match attributesUpdateTimeout w with
            | Some t => clearTimeout t w
            | None => w
            end in
  if is_connected w1
  then call_then getConsumableStatus OnConsumableStatus w1
  else schedule w1.

Definition updateAttributesTopicOnEvent (statusData : jsval) : M unit :=
  st <~ lift (get_prop statusData "state") ;
  exec act (set_last_states (ha_state_of st) st) ;
  act updateAttributesTopic.

(** The listener of "miio.status". *)
Definition on_miio_status (statusData : jsval) : M unit :=
  exec updateStatusTopic statusData ;
  updateAttributesTopicOnEvent statusData.

(** [x > 0] *)
Definition gt_zero (v : jsval) : bool :=
  match v with
  | VNum n => (0 <? n)%Z
  | VBool b => b
  | VUndef | VNull => false
  | _ => coerced_gt_zero env v
  end.

(** Lines 263-266: publish the snapshot unless it serialises like the last
    published one. *)
Definition publish_if_changed (response : jsval) (w : World) : World :=
  if negb (bool_decide (stringify response = stringify (last_attributes w)))
  then set_last_attributes response
         (emit (Publish topics_attributes (stringify_str response) true (qos env)) w)
  else w.

(** The snapshot of lines 233-261, from the values it is assembled from. *)
Definition attributes_snapshot
    (t0 t1 cleanCount cached main_brush side_brush filter_time sensor_time
       ha st zoneCleaningStatus : jsval) : jsval :=
  VObj ([ ("cleanTime", VStr (div3600_fixed1 env t0));
          ("cleanArea", VStr (div1e6_fixed1 env t1));
          ("cleanCount", cleanCount);
          ("last_run_stats", if truthy cached then cached else VObj []);
          ("mainBrush", VStr (remaining_fixed1 env 300 main_brush));
          ("sideBrush", VStr (remaining_fixed1 env 200 side_brush));
          ("filter", VStr (remaining_fixed1 env 150 filter_time));
          ("sensor", VStr (remaining_fixed1 env 30 sensor_time));
          ("state", ha);
          ("valetudo_state", st) ]
        ++ (if truthy zoneCleaningStatus
            then [("zoneStatus", zoneCleaningStatus)] else []))%list.

(** Lines 233-261 of the reaction to the clean summary [res2]: the record
    fetch is started when the history is not empty, and the snapshot is
    assembled; [res] is the consumable status captured by the closure. *)
Definition assemble_response (res res2 : jsval) : M jsval :=
  t0 <~ lift (get_index res2 0) ;
  t1 <~ lift (get_index res2 1) ;
  cleanCount <~ lift (get_index res2 2) ;
  last_runs <~ lift (get_index res2 3) ;
  len <~ lift (get_prop last_runs "length") ;
  exec (if gt_zero len then
          r0 <~ lift (get_index last_runs 0) ;
          act (call_then (getCleanRecord (parseInt env r0)) OnCleanRecord)
        else ret tt) ;
  cached <~ read last_run_stats ;
  main_brush <~ lift (get_prop res "main_brush_work_time") ;
  side_brush <~ lift (get_prop res "side_brush_work_time") ;
  filter_time <~ lift (get_prop res "filter_work_time") ;
  sensor_time <~ lift (get_prop res "sensor_dirty_time") ;
  ha <~ read last_ha_state ;
  st <~ read last_state ;
  zoneCleaningStatus <~ read zoneCleaningStatus ;
  ret (attributes_snapshot t0 t1 cleanCount cached main_brush side_brush
         filter_time sensor_time ha st zoneCleaningStatus).

(** The reaction to the clean summary: lines 233-270. *)
Definition on_clean_summary (res res2 : jsval) : M unit :=
  response <~ assemble_response res res2 ;
  exec act (publish_if_changed response) ;
  act schedule.

(** The reaction to the clean record [data]. *)
Definition on_clean_record (data : jsval) : M unit :=
  d0 <~ lift (get_index data 0) ;
  startTime <~ lift (get_index d0 0) ;
  endTime <~ lift (get_index d0 1) ;
  duration <~ lift (get_index d0 2) ;
  area <~ lift (get_index d0 3) ;
  errorCode <~ lift (get_index d0 4) ;
  finished <~ lift (get_index d0 5) ;
  act (set_last_run_stats
         (VObj [ ("startTime", times1000 env startTime);
                 ("endTime", times1000 env endTime);
                 ("duration", duration);
                 ("area", VStr (div1e6_fixed1 env area));
                 ("errorCode", errorCode);
                 ("errorDescription", GET_ERROR_CODE_DESCRIPTION env errorCode);
                 ("finishedFlag", VBool (strict_eq finished (VNum 1))) ])).

(** *** handleFanSpeedRequest, handleCommand, handleCustomCommand *)

Definition handleFanSpeedRequest (speed : string) (w : World) : World :=
  call_ (setFanSpeed (match assoc speed FAN_SPEEDS with
                      | Some p => VNum p
                      | None => VUndef
                      end)) w.

Definition handleCommand (command : string) (w : World) : World :=
  if String.eqb command "start" then call_then getCurrentStatus OnCurrentStatus w
  else if String.eqb command "stop" then call_ stopCleaning w
  else if String.eqb command "return_to_base" then call_then stopCleaning OnStopped w
  else if String.eqb command "clean_spot" then call_ spotClean w
  else if String.eqb command "locate" then call_ findRobot w
  else if String.eqb command "pause" then call_ pauseCleaning w
  else w.

(** The fulfilment callback of [getCurrentStatus()] in the "start" case. *)
Definition on_current_status (res : jsval) : M unit :=
  in_cleaning <~ lift (get_prop res "in_cleaning") ;
  if strict_eq in_cleaning (VNum 2) then
    st <~ lift (get_prop res "state") ;
    if strict_eq (ha_state_of st) (VStr HA_STATES.PAUSED)
    then act (call_ resumeCleaningZone)
    else act (call_ startCleaning)
  else act (call_ startCleaning).

(** The zones whose name or id is among the entries of [zones], mapped to
    their ids. *)
Definition matched_zone_ids (zones : list jsval) : list jsval :=
  map zone_id
    (List.filter (fun zone => includes zones (zone_name zone)
                              || includes zones (zone_id zone))
       (getZones env)).

Definition is_spot (spot_id : jsval) (e : jsval) : bool :=
  match e with
  | VArr es => strict_eq (default VUndef (es !! 0%nat)) spot_id
  | _ => false
  end.

Definition handleCustomCommand (message : string) (w : World) : World :=
  match JSON_parse env message with
  | None => emit LogError w
  | Some msg =>
      let command := default VUndef (get_prop msg "command") in
      if truthy msg && truthy command then
        if strict_eq command (VStr "zoned_cleanup") then
          match default VUndef (get_prop msg "zone_ids") with
          | VArr (z :: zs) =>
              call_then (startCleaningZonesById (matched_zone_ids (z :: zs)))
                OnZonesStarted w
          | _ => emit (LogInfo "Missing zone_ids or empty array") w
          end
        else if strict_eq command (VStr "go_to") then
          let spot_id := default VUndef (get_prop msg "spot_id") in
          if truthy spot_id then
            match List.find (is_spot spot_id) (spots env) with
            | Some (VArr es) =>
                call_ (goTo (default VUndef (es !! 1%nat))
                            (default VUndef (es !! 2%nat))) w
            | _ => emit (LogInfo "Invalid spot_id") w
            end
          else emit (LogInfo "Missing spot_id") w
        else emit (LogInfo "Received invalid custom command") w
      else w
  end.

(** The listener of the client's "message" event. *)
Definition on_message (topic msg : string) (w : World) : World :=
  if String.eqb topic topics_send_command then handleCustomCommand msg w
  else if String.eqb topic topics_set_fan_speed then handleFanSpeedRequest msg w
  else if String.eqb topic topics_command then handleCommand msg w
  else w.

(** *** Promise reactions *)

Definition react (r : Reaction) (s : Settled) : World → World :=
  match r, s with
  | OnConsumableStatus, Resolve res => call_then getCleanSummary (OnCleanSummary res)
  | OnConsumableStatus, Reject _ => fun w => schedule (emit LogError w)
  | OnCleanSummary res, Resolve res2 =>
      catch (on_clean_summary res res2) (fun w => schedule (emit LogError w))
  | OnCleanSummary _, Reject _ => fun w => schedule (emit LogError w)
  | OnCleanRecord, Resolve data => catch (on_clean_record data) (emit LogError)
  | OnCleanRecord, Reject _ => emit LogError
  | OnCurrentStatus, Resolve res => run (on_current_status res)
  | OnCurrentStatus, Reject _ => emit LogError
  | OnStopped, Resolve _ => call_ driveHome
  | OnStopped, Reject _ => fun w => w
  | OnZonesStarted, Resolve _ => fun w => w
  | OnZonesStarted, Reject _ => emit LogError
  end.

Definition reaction_of (p : nat) (w : World) : option Reaction :=
  snd <$> List.find (fun pr => Nat.eqb (fst pr) p) (promises w).

(** Promise [p] settles: its reaction runs once and the promise is no
    longer pending. *)
Definition settle (p : nat) (s : Settled) (w : World) : World :=
  match reaction_of p w with
  | None => w
  | Some r =>
      react r s
        (set_promises (List.filter (fun pr => negb (Nat.eqb (fst pr) p)) (promises w)) w)
  end.

(** Timer [t] fires. *)
Definition fire (t : nat) (w : World) : World :=
  if bool_decide (t ∈ timers w)
  then updateAttributesTopic
         (set_timers (attributesUpdateTimeout w)
            (filter (fun t' => t' ≠ t) (timers w)) w)
  else w.

(** *** The event loop *)

Inductive Event : Type :=
  | CallConnect (fresh : ClientHandle)
  | ClientChanged (c : ClientHandle)
  | Connected
  | Subscribed (err : jsval)
  | Message (topic msg : string)
  | MiioStatus (statusData : jsval)
  | ZoneStatusChanged (z : jsval)
  | TimerFired (t : nat)
  | Settles (p : nat) (s : Settled).

Definition step (w : World) (ev : Event) : World :=
  match ev with
  | CallConnect fresh => connect fresh w
  | ClientChanged c =>
      match client w with Some _ => set_client (Some c) w | None => w end
  | Connected => on_connect w
  | Subscribed err => on_subscribed err w
  | Message topic msg => on_message topic msg w
  | MiioStatus statusData => run (on_miio_status statusData) w
  | ZoneStatusChanged z => set_zoneCleaningStatus z w
  | TimerFired t => fire t w
  | Settles p s => settle p s w
  end.

Definition run_events (w : World) (evs : list Event) : World :=
  fold_left step evs w.

(** [new MqttClient(options)] up to the registration of the listeners. *)
Definition constructor (fresh : ClientHandle) (z : jsval) : World :=
  updateAttributesTopic (connect fresh (initial z)).

(** The effects a step adds to the trace. *)
Definition added (w w' : World) : list Effect :=
  drop (List.length (trace w)) (trace w').

End MqttClient.

(** ** A concrete environment

    An instance of [Env] on which the model runs by computation. Its number
    formatting rounds the exact quotient to one decimal, its [JSON_parse]
    knows the payloads used below, and its zone table is the one of the
    zoned-cleanup example. *)

Definition fixed1_of_tenths (t : Z) : string :=
  pretty (t / 10)%Z ++ "." ++ pretty (t mod 10)%Z.

Definition sample_div_fixed1 (d : Z) (v : jsval) : string :=
  match v with
  | VNum n => fixed1_of_tenths ((2 * 10 * n + d) / (2 * d))
  | _ => "NaN"
  end.

Definition sample_remaining_fixed1 (limit : Z) (v : jsval) : string :=
  match v with
  | VNum n => fixed1_of_tenths (Z.max 0 ((2 * 10 * (limit * 3600 - n) + 3600) / (2 * 3600)))
  | _ => "NaN"
  end.

Definition sample_times1000 (v : jsval) : jsval :=
  match v with VNum n => VNum (n * 1000) | _ => VNull end.

Definition zoned_cleanup_strings : jsval :=
  VObj [ ("command", VStr "zoned_cleanup");
         ("zone_ids", VArr [VStr "Kitchen"; VStr "7"]) ].

Definition zoned_cleanup_mixed : jsval :=
  VObj [ ("command", VStr "zoned_cleanup");
         ("zone_ids", VArr [VStr "Kitchen"; VNum 7]) ].

Definition sample_JSON_parse (text : string) : option jsval :=
  if String.eqb text (stringify_str zoned_cleanup_strings) then Some zoned_cleanup_strings
  else if String.eqb text (stringify_str zoned_cleanup_mixed) then Some zoned_cleanup_mixed
  else None.

Definition sample_env : Env :=
  {| div3600_fixed1 := sample_div_fixed1 3600;
     div1e6_fixed1 := sample_div_fixed1 1000000;
     remaining_fixed1 := sample_remaining_fixed1;
     times1000 := sample_times1000;
     parseInt := fun v => v;
     coerced_gt_zero := fun _ => false;
     GET_ERROR_CODE_DESCRIPTION := fun _ => VStr "No error";
     JSON_parse := sample_JSON_parse;
     brokerURL := "mqtt://broker";
     identifier := "rockrobo";
     topicPrefix := "valetudo";
     autoconfPrefix := "homeassistant";
     attributesUpdateInterval := 60000;
     provideMapData := true;
     caPath := "";
     qos := 0;
     manufacturerName := "Xiaomi";
     modelName := "rockrobo.vacuum.v1";
     getZones := [ {| zone_id := VNum 3; zone_name := VStr "Kitchen" |};
                   {| zone_id := VNum 7; zone_name := VStr "Garage" |} ];
     spots := [] |}.

Definition online : ClientHandle :=
  {| connected := VBool true; reconnecting := VBool false |}.
Definition offline : ClientHandle :=
  {| connected := VBool false; reconnecting := VBool false |}.
Definition retrying : ClientHandle :=
  {| connected := VBool false; reconnecting := VBool true |}.

Definition sample_consumables : jsval :=
  VObj [ ("main_brush_work_time", VNum 36000);
         ("side_brush_work_time", VNum 36000);
         ("filter_work_time", VNum 36000);
         ("sensor_dirty_time", VNum 36000) ].

Definition sample_summary : jsval :=
  VArr [VNum 7200; VNum 25000000; VNum 4; VArr [VNum 1600000000]].

Definition sample_record : jsval :=
  VArr [VArr [VNum 1600000000; VNum 1600001800; VNum 1800; VNum 12000000;
              VNum 0; VNum 1]].

(** ** Codec (the miio packet codec) *)

Module Codec.

Fixpoint bytes_eqb (a b : list byte) : bool :=
  match a, b with
  | [], [] => true
  | x :: a', y :: b' => Byte.eqb x y && bytes_eqb a' b'
  | _, _ => false
  end.

(** [buf.readUInt32BE(offset)] on a buffer that holds the four bytes. *)
Definition readUInt32BE (buf : list byte) (offset : nat) : Z :=
  fold_left (fun acc b => (acc * 256 + Z.of_N (Byte.to_N b))%Z)
    (take 4 (drop offset buf)) 0%Z.

(** [text.replace(/[\u0000-\u0019]+/g, "")] *)
Fixpoint strip_control (s : string) : string :=
  match s with
  | EmptyString => EmptyString
  | String c rest =>
      if Nat.leb (nat_of_ascii c) 25 then strip_control rest
      else String c (strip_control rest)
  end.

Record Response := {
  stamp : Z;
  deviceId : Z;
  msg : jsval;
  token : option (list byte)
}.

(** What a call of [handleResponse] does: it returns a response, possibly
    after logging an error, or an exception of the decipher or of
    [JSON.parse] escapes. *)
Inductive Outcome : Type :=
  | Returned (r : Response) (logged_error : bool)
  | Thrown.

Section WithCrypto.
(** [crypto.createHash("md5")] fed with the concatenation of its updates *)
Variable md5 : list byte → list byte.
(** [crypto.createDecipheriv("aes-128-cbc", key, iv)], [update] and
    [final]; [None] when [final] throws *)
Variable aes_128_cbc_decrypt : list byte → list byte → list byte → option (list byte).
(** [Buffer.prototype.toString] *)
Variable toString : list byte → string.
Variable JSON_parse : string → option jsval.

Record Codec := {
  this_token : list byte;
  tokenKey : list byte;
  tokenIV : list byte
}.

Definition setToken (tok : list byte) : Codec :=
  {| this_token := tok;
     tokenKey := md5 tok;
     tokenIV := md5 (md5 tok ++ tok)%list |}.

(** [Buffer.alloc(32)] after [response.copy(header, 0, 0, 32)] *)
Definition header_of (response : list byte) : list byte :=
  (take 32 response ++ replicate (32 - List.length (take 32 response)) x00)%list.

(** [response.slice(32)] *)
Definition encrypted_of (response : list byte) : list byte := drop 32 response.

(** [header.slice(16)] *)
Definition checksum_of (response : list byte) : list byte :=
  drop 16 (header_of response).

Definition digest_of (c : Codec) (response : list byte) : list byte :=
  md5 (take 16 (header_of response) ++ this_token c ++ encrypted_of response)%list.

Definition handleResponse (c : Codec) (response : list byte) : Outcome :=
  let header := header_of response in
  let encrypted := encrypted_of response in
  let stamp := readUInt32BE header 12 in
  let digest := digest_of c response in
  let checksum := checksum_of response in
  let result m t :=
    {| stamp := stamp; deviceId := readUInt32BE header 8; msg := m; token := t |} in
  if negb (bytes_eqb checksum digest) then
    if Nat.ltb 0 (List.length encrypted)
    then Returned (result VNull None) true
    else Returned (result VNull (Some (drop 16 header))) false
  else if Nat.ltb 0 (List.length encrypted) then
    match aes_128_cbc_decrypt (tokenKey c) (tokenIV c) encrypted with
    | None => Thrown
    | Some plain =>
        match JSON_parse (strip_control (toString plain)) with
        | None => Thrown
        | Some m => Returned (result m None) false
        end
    end
  else Returned (result VNull None) false.

End WithCrypto.

End Codec.

(** ** Conditions named by the properties *)

(** No connection handle exists, or the existing one reports both
    disconnected and not reconnecting. *)
Definition may_connect (w : World) : Prop :=
  client w = None
  ∨ ∃ c, client w = Some c ∧ connected c = VBool false ∧ reconnecting c = VBool false.

(** The status reports [in_cleaning] equal to 2 and a state mapped to
    "paused". *)
Definition paused_in_zone (in_cleaning st : jsval) : Prop :=
  in_cleaning = VNum 2 ∧ mapState (to_property_key st) = Some HA_STATES.PAUSED.

(** A zone is selected by an entry that is its name or its id. *)
Definition zone_selected (zones : list jsval) (zone : Zone) : Prop :=
  ∃ entry, entry ∈ zones
           ∧ (strict_eq entry (zone_name zone) = true
              ∨ strict_eq entry (zone_id zone) = true).

(** ** The comparison the specification describes

    Structural equality of snapshots that does not look at the order of the
    fields: two objects are equal when they have the same number of fields
    and every field of the first has an equal field of the same name in the
    second. The code does not use it; it is compared with the code's own test
    in [publish_if_changed]. *)
Fixpoint structurally_equal (a b : jsval) : bool :=
  match a, b with
  | VUndef, VUndef => true
  | VNull, VNull => true
  | VBool x, VBool y => Bool.eqb x y
  | VNum x, VNum y => (x =? y)%Z
  | VStr x, VStr y => String.eqb x y
  | VArr xs, VArr ys =>
      (fix go (l r : list jsval) : bool :=
         match l, r with
         | [], [] => true
         | x :: l', y :: r' => structurally_equal x y && go l' r'
         | _, _ => false
         end) xs ys
  | VObj fs, VObj gs =>
      Nat.eqb (List.length fs) (List.length gs)
      && (fix go (l : list (string * jsval)) : bool :=
            match l with
            | [] => true
            | (k, x) :: l' =>
                match assoc k gs with
                | Some y => structurally_equal x y
                | None => false
                end && go l'
            end) fs
  | _, _ => false
  end.

(** ** What a handler may add to the trace

    [extends Q w w']: the trace of [w'] is the trace of [w] followed by
    effects that all satisfy [Q]. *)

Definition extends (Q : Effect → Prop) (w w' : World) : Prop :=
  ∃ l, trace w' = (trace w ++ l)%list ∧ Forall Q l.

Definition keeps (Q : Effect → Prop) (f : World → World) : Prop :=
  ∀ w, extends Q w (f w).

Definition mkeeps {A : Type} (Q : Effect → Prop) (m : M A) : Prop :=
  ∀ w, extends Q w (fst (m w)).

(** The effects of the attribute aggregator. *)
Inductive aggregator_effect (env : Env) : Effect → Prop :=
  | agg_set t d : aggregator_effect env (SetTimeout t d)
  | agg_clear t : aggregator_effect env (ClearTimeout t)
  | agg_log : aggregator_effect env LogError
  | agg_consumable : aggregator_effect env (Call getConsumableStatus)
  | agg_summary : aggregator_effect env (Call getCleanSummary)
  | agg_record r : aggregator_effect env (Call (getCleanRecord r))
  | agg_publish payload :
      aggregator_effect env (Publish (topics_attributes env) payload true (qos env)).

(** The three reactions of the aggregation cycle. *)
Definition aggregator_reaction (r : Reaction) : bool :=
  match r with
  | OnConsumableStatus | OnCleanSummary _ | OnCleanRecord => true
  | _ => false
  end.

(** A publish on the state topic. *)
Definition is_state_publish (env : Env) (e : Effect) : Prop :=
  ∃ payload r q, e = Publish (topics_state env) payload r q.

Fixpoint last_char (s : string) : option ascii :=
  match s with
  | EmptyString => None
  | String c rest => match last_char rest with Some c' => Some c' | None => Some c end
  end.

(** ** Runs on the concrete environment *)

Definition sample_summary_no_history : jsval :=
  VArr [VNum 7200; VNum 25000000; VNum 4; VArr []].

Definition zone_status_a : jsval := VObj [("zones", VNum 2); ("done", VNum 1)].
Definition zone_status_b : jsval := VObj [("done", VNum 1); ("zones", VNum 2)].

(** A first cycle has published a snapshot with zone status [zone_status_a];
    the device then reports the same status with its fields in the other
    order, and a second cycle has fetched the consumables and awaits the
    clean summary (promise 5). *)
Definition before_second_summary : World :=
  run_events sample_env (constructor sample_env offline zone_status_a)
    [ ClientChanged online;
      TimerFired 0;
      Settles 1 (Resolve sample_consumables);
      Settles 2 (Resolve sample_summary_no_history);
      ZoneStatusChanged zone_status_b;
      TimerFired 3;
      Settles 4 (Resolve sample_consumables) ].


(** ** Counting scheduled cycles *)

Definition is_set_timeout (e : Effect) : bool :=
  match e with SetTimeout _ _ => true | _ => false end.

(** The number of [setTimeout] calls among some effects. *)
Definition scheduled (l : list Effect) : nat :=
  List.length (List.filter is_set_timeout l).

(** A status event of a cleaning robot. *)
Definition status_cleaning : jsval :=
  VObj [ ("state", VStr "CLEANING"); ("battery", VNum 80);
         ("fan_power", VNum 60); ("error_code", VNum 0) ].

(** The client is connected and two status events arrive one after the
    other; the aggregation cycle started by the first (promises 1 and 3) is
    still waiting for the device when the second starts its own (promises 2
    and 4). Both cycles then complete successfully. *)
Definition overlapping_cycles : World :=
  run_events sample_env (constructor sample_env offline VUndef)
    [ ClientChanged online;
      MiioStatus status_cleaning;
      MiioStatus status_cleaning;
      Settles 1 (Resolve sample_consumables);
      Settles 2 (Resolve sample_consumables);
      Settles 3 (Resolve sample_summary_no_history);
      Settles 4 (Resolve sample_summary_no_history) ].

(** The world in which the first cycle of the client awaits the clean
    summary (promise 2). *)
Definition before_first_summary : World :=
  run_events sample_env (constructor sample_env offline VUndef)
    [ ClientChanged online;
      TimerFired 0;
      Settles 1 (Resolve sample_consumables) ].


(** ** The listeners outside the event loop above

    The map publisher, the listener of the client's "error" event, and the
    loop extended with them. *)

(** [updateMapDataTopic(mapDTO)] *)
Definition updateMapDataTopic (env : Env) (mapDTO : jsval) (w : World) : World :=
  let parsedData := default VUndef (get_prop mapDTO "parsedData") in
  if is_connected w && truthy mapDTO && truthy parsedData
  then emit (Publish (topics_map_data env) (stringify_str parsedData) true (qos env)) w
  else w.

(** The listener of "valetudo.map"; [map] is [this.map] as it is then. *)
Definition on_valetudo_map (env : Env) (map : jsval) (w : World) : World :=
  if provideMapData env then updateMapDataTopic env map w else w.

(** [e.toString()]: a TypeError on [undefined] and [null], and on an object
    whose own [toString] property is a value, which is not callable. *)
Definition toString_throws (e : jsval) : bool :=
  match e with
  | VUndef | VNull => true
  | VObj fs => match assoc "toString" fs with Some _ => true | None => false end
  | _ => false
  end.

(** The listener of the client's "error" event. *)
Definition on_error (e : jsval) : M unit :=
  if truthy e && strict_eq (default VUndef (get_prop e "message")) (VStr "Not supported")
  then act (emit (LogInfo "Connected to non standard compliant MQTT Broker."))
  else
    exec lift (if toString_throws e then None else Some tt) ;
    act (emit LogError).

Inductive Stimulus : Type :=
  | Loop (ev : Event)
  | ValetudoMap (map : jsval)
  | ClientError (e : jsval).

Definition react_to (env : Env) (w : World) (s : Stimulus) : World :=
  match s with
  | Loop ev => step env w ev
  | ValetudoMap map => on_valetudo_map env map w
  | ClientError e => run (on_error e) w
  end.

Definition run_all (env : Env) (w : World) (ss : list Stimulus) : World :=
  fold_left (react_to env) ss w.

(** The seven topics of the constructor. *)
Definition all_topics (env : Env) : list string :=
  [ topics_command env; topics_set_fan_speed env; topics_send_command env;
    topics_state env; topics_map_data env; topics_attributes env;
    topics_homeassistant_autoconf_vacuum env ].

(** ** Codec.encode *)

Module CodecEncode.

(** [source.copy(target, targetStart)] *)
Definition copy_into (source target : list byte) (targetStart : nat) : list byte :=
  if Nat.leb (List.length target) targetStart then target
  else (take targetStart target
        ++ take (List.length target - targetStart) source
        ++ drop (targetStart + List.length source) target)%list.

Section WithCrypto.
Variable md5 : list byte → list byte.
(** [crypto.createCipheriv("aes-128-cbc", key, iv)], [update] and [final] *)
Variable aes_128_cbc_encrypt : list byte → list byte → list byte → list byte.
(** [createMiioHeader({timestamp, deviceId, payloadLength, unknown})] of
    MiioHeader.js; the time stamp is [stamp.val + secondsPassed], a floating
    point number, and is taken as it is. *)
Variable Timestamp : Type.
Variable createMiioHeader : Timestamp → Z → nat → Z → list byte.

Definition encode (c : Codec.Codec) (msg : list byte) (timestamp : Timestamp)
    (deviceId : Z) : list byte :=
  let encrypted := aes_128_cbc_encrypt (Codec.tokenKey c) (Codec.tokenIV c) msg in
  let header := createMiioHeader timestamp deviceId (List.length encrypted) 0 in
  let digest := md5 (take 16 header ++ Codec.this_token c ++ encrypted)%list in
  (copy_into digest header 16 ++ encrypted)%list.

End WithCrypto.

End CodecEncode.


(** ** More runs on the concrete environment *)

(** The sample environment with another [JSON_parse] and other spots. *)
Definition env_with_parse (parse : string → option jsval) (ss : list jsval) : Env :=
  {| div3600_fixed1 := div3600_fixed1 sample_env;
     div1e6_fixed1 := div1e6_fixed1 sample_env;
     remaining_fixed1 := remaining_fixed1 sample_env;
     times1000 := times1000 sample_env;
     parseInt := parseInt sample_env;
     coerced_gt_zero := coerced_gt_zero sample_env;
     GET_ERROR_CODE_DESCRIPTION := GET_ERROR_CODE_DESCRIPTION sample_env;
     JSON_parse := parse;
     brokerURL := brokerURL sample_env;
     identifier := identifier sample_env;
     topicPrefix := topicPrefix sample_env;
     autoconfPrefix := autoconfPrefix sample_env;
     attributesUpdateInterval := attributesUpdateInterval sample_env;
     provideMapData := provideMapData sample_env;
     caPath := caPath sample_env;
     qos := qos sample_env;
     manufacturerName := manufacturerName sample_env;
     modelName := modelName sample_env;
     getZones := getZones sample_env;
     spots := ss |}.

Definition go_to_balcony : jsval :=
  VObj [("command", VStr "go_to"); ("spot_id", VStr "Balcony")].

(** An environment whose parser knows the go_to payload and whose spots are
    a malformed entry, "Sofa" and two spots called "Balcony". *)
Definition go_to_parse (text : string) : option jsval :=
  if String.eqb text (stringify_str go_to_balcony) then Some go_to_balcony else None.

Definition spots_env : Env :=
  env_with_parse go_to_parse
    [ VStr "Balcony";
      VArr [VStr "Sofa"; VNum 25000; VNum 26000];
      VArr [VStr "Balcony"; VNum 21000; VNum 30500];
      VArr [VStr "Balcony"; VNum 1; VNum 2] ].

Definition zoned_cleanup_attic : jsval :=
  VObj [("command", VStr "zoned_cleanup"); ("zone_ids", VArr [VStr "Attic"])].

Definition attic_parse (text : string) : option jsval :=
  if String.eqb text (stringify_str zoned_cleanup_attic)
  then Some zoned_cleanup_attic else None.



(** A publish on the map topic. *)
Definition is_map_publish (env : Env) (e : Effect) : Prop :=
  ∃ payload, e = Publish (topics_map_data env) payload true (qos env).




(** ** Invariants of the event loop *)

(** A publish on the attributes topic. *)
Definition is_attributes_publish (env : Env) (e : Effect) : Prop :=
  ∃ payload r q, e = Publish (topics_attributes env) payload r q.




(** The removal of the settled promise [p]. *)
Definition drop_promise (p : nat) (w : World) : World :=
  set_promises (List.filter (fun pr => negb (Nat.eqb (fst pr) p)) (promises w)) w.

(** The removal of the fired timer [t]. *)
Definition drop_timer (t : nat) (w : World) : World :=
  set_timers (attributesUpdateTimeout w) (filter (fun t' => t' ≠ t) (timers w)) w.

(** A reaction that continues an aggregation cycle: the cycle is in flight
    while such a reaction is pending. *)
Definition cycle_reaction (r : Reaction) : bool :=
  match r with
  | OnConsumableStatus | OnCleanSummary _ => true
  | _ => false
  end.

Definition cycles_in_flight (w : World) : nat :=
  List.length (List.filter (fun pr => cycle_reaction (snd pr)) (promises w)).

(** The cycles that are scheduled or in flight. *)
Definition live_cycles (w : World) : nat :=
  (List.length (timers w) + cycles_in_flight w)%nat.

(** The identifiers of the pending promises are distinct and were all handed
    out already. *)
Definition promises_wf (w : World) : Prop :=
  NoDup (map fst (promises w)) ∧ Forall (fun p => (p < next_id w)%nat) (map fst (promises w)).



Definition is_status_event (s : Stimulus) : bool :=
  match s with
  | Loop (MiioStatus _) => true
  | _ => false
  end.


(** [f] keeps [P]; the computation [m] keeps [P], also when it throws. *)
Definition preserved (P : World → Prop) (f : World → World) : Prop :=
  ∀ w, P w → P (f w).
Definition mpreserved {A} (P : World → Prop) (m : M A) : Prop :=
  ∀ w, P w → P (fst (m w)).

(** [w'] has the timers, the timer handle and the number of cycles in
    flight of [w]. *)
Definition same_cycles (w w' : World) : Prop :=
  timers w' = timers w
  ∧ attributesUpdateTimeout w' = attributesUpdateTimeout w
  ∧ cycles_in_flight w' = cycles_in_flight w.

(** Every pending timer is the one the client remembers. *)
Definition timers_remembered (w : World) : Prop :=
  ∀ t, t ∈ timers w → attributesUpdateTimeout w = Some t.


(** A device call or a log line. *)
Definition is_call_or_log (e : Effect) : Prop :=
  match e with
  | Call _ | LogError | LogInfo _ => True
  | _ => False
  end.

Definition is_publish (e : Effect) : Prop :=
  match e with
  | Publish _ _ _ _ => True
  | _ => False
  end.


(** * Properties *)

(** ** Basic facts about values and traces *)

Lemma strict_eq_bool (v : jsval) (b : bool) :
  strict_eq v (VBool b) = true ↔ v = VBool b.
Proof.
  destruct v as [| |b'| | | |]; simpl; try (split; [discriminate|discriminate]).
  destruct b', b; simpl; split; intros H; try reflexivity; try discriminate;
    inversion H.
Qed.

Lemma strict_eq_num (v : jsval) (n : Z) :
  strict_eq v (VNum n) = true ↔ v = VNum n.
Proof.
  destruct v as [| | |m| | |]; simpl; try (split; [discriminate|discriminate]).
  rewrite Z.eqb_eq. split; [intros ->; reflexivity | intros H; inversion H; reflexivity].
Qed.

Lemma strict_eq_str (v : jsval) (s : string) :
  strict_eq v (VStr s) = true ↔ v = VStr s.
Proof.
  destruct v as [| | | |s'| |]; simpl; try (split; [discriminate|discriminate]).
  rewrite String.eqb_eq. split; [intros ->; reflexivity | intros H; inversion H; reflexivity].
Qed.

Lemma strict_eq_undef (v : jsval) : strict_eq v VUndef = true ↔ v = VUndef.
Proof. destruct v; simpl; split; intros H; try reflexivity; discriminate. Qed.

Lemma added_app (w w' : World) (l : list Effect) :
  trace w' = (trace w ++ l)%list → added w w' = l.
Proof. intros H. unfold added. rewrite H. apply drop_app_length. Qed.

Lemma added_refl (w : World) : added w w = [].
Proof. apply added_app. symmetry. apply app_nil_r. Qed.

Lemma added_emit (e : Effect) (w : World) : added w (emit e w) = [e].
Proof. apply added_app. reflexivity. Qed.

Lemma added_call_then (op : DeviceOp) (r : Reaction) (w : World) :
  added w (call_then op r w) = [Call op].
Proof. apply added_app. reflexivity. Qed.
(** C1: every native state code that has an entry in [HA_STATE_MAPPINGS] is
    mapped to exactly one result, and that result is one of the six
    standardized states. *)
Theorem mapState_total_on_table (code : string) :
  code ∈ dom HA_STATE_MAPPINGS →
  ∃ s, mapState code = Some s
       ∧ (∀ s', mapState code = Some s' → s' = s)
       ∧ s ∈ standardized_states.
Proof.
  intros Hin. apply elem_of_dom in Hin as [s Hs].
  exists s. split; [exact Hs|]. split.
  - intros s' Hs'. unfold mapState in Hs'. congruence.
  - assert (Hall : map_Forall (λ _ v, v ∈ standardized_states) HA_STATE_MAPPINGS).
    { apply map_Forall_to_list. vm_compute map_to_list.
      repeat (apply Forall_cons; split; [vm_compute; set_solver|]).
      apply Forall_nil. done. }
    exact (Hall code s Hs).
Qed.

Lemma mapState_total_on_table_witness :
  ∃ s, mapState "DOCKING" = Some s
       ∧ (∀ s', mapState "DOCKING" = Some s' → s' = s)
       ∧ s ∈ standardized_states.
Proof.
  apply (mapState_total_on_table "DOCKING").
  apply elem_of_dom. exists "returning". vm_compute. reflexivity.
Defined.

(** ** connect *)

(** C7: [connect] starts a connect attempt exactly when no handle exists or
    the handle reports disconnected and not reconnecting; while the handle
    reports connected or reconnecting, a call changes nothing: no second
    attempt, no new handle, no new listeners. *)
Theorem connect_only_when_idle (env : Env) (fresh : ClientHandle) (w : World) :
  (may_connect w →
     connect env fresh w
     = emit (MqttConnect (brokerURL env) (caPath env)) (set_client (Some fresh) w))
  ∧ (¬ may_connect w → connect env fresh w = w)
  ∧ (∀ c, client w = Some c →
          connected c = VBool true ∨ reconnecting c = VBool true →
          connect env fresh w = w).
Proof.
  assert (Hguard : should_connect w = true ↔ may_connect w).
  { unfold should_connect, may_connect. destruct (client w) as [c|].
    - rewrite andb_true_iff, !strict_eq_bool. split.
      + intros [? ?]. right. exists c. auto.
      + intros [?|(c' & Hc & ? & ?)]; [discriminate|]. inversion Hc; subst. auto.
    - split; auto. }
  unfold connect. split; [|split].
  - intros H. apply Hguard in H. rewrite H. reflexivity.
  - intros H. destruct (should_connect w) eqn:E; [|reflexivity].
    exfalso. apply H, Hguard. reflexivity.
  - intros c Hc Hbusy. destruct (should_connect w) eqn:E; [|reflexivity].
    exfalso. destruct (proj1 Hguard eq_refl) as [Hn|(c' & Hc' & Hd & Hr)].
    + congruence.
    + rewrite Hc in Hc'. inversion Hc'; subst c'.
      destruct Hbusy as [H|H]; congruence.
Qed.

Lemma connect_only_when_idle_witness :
  connect sample_env online (initial VUndef)
  = emit (MqttConnect "mqtt://broker" "") (set_client (Some online) (initial VUndef))
  ∧ connect sample_env online (set_client (Some retrying) (initial VUndef))
    = set_client (Some retrying) (initial VUndef).
Proof.
  split.
  - apply (connect_only_when_idle sample_env online (initial VUndef)).
    left. reflexivity.
  - apply (connect_only_when_idle sample_env online
             (set_client (Some retrying) (initial VUndef)) ) with (c := retrying).
    + reflexivity.
    + right. reflexivity.
Defined.

(** ** handleCommand *)

(** C5: "start" first asks the device for its status and issues nothing
    else; when the status arrives, a resume-zone call is issued if it reports
    [in_cleaning] 2 and a state mapped to "paused", and a start-cleaning call
    for every other status. *)
Theorem start_resumes_or_starts (env : Env) (w : World) :
  added w (handleCommand "start" w) = [Call getCurrentStatus]
  ∧ promises (handleCommand "start" w)
    = (promises w ++ [(next_id w, OnCurrentStatus)])%list
  ∧ ∀ (w' : World) (p : nat) (res in_cleaning st : jsval),
      reaction_of p w' = Some OnCurrentStatus →
      get_prop res "in_cleaning" = Some in_cleaning →
      get_prop res "state" = Some st →
      (paused_in_zone in_cleaning st →
         added w' (settle env p (Resolve res) w') = [Call resumeCleaningZone])
      ∧ (¬ paused_in_zone in_cleaning st →
           added w' (settle env p (Resolve res) w') = [Call startCleaning]).
Proof.
  split; [|split].
  - apply added_call_then.
  - reflexivity.
  - intros w' p res ic st Hp Hic Hst.
    assert (Hcond : strict_eq ic (VNum 2) && strict_eq (ha_state_of st) (VStr HA_STATES.PAUSED) = true
                    ↔ paused_in_zone ic st).
    { unfold paused_in_zone. rewrite andb_true_iff, strict_eq_num, strict_eq_str.
      unfold ha_state_of. destruct (mapState (to_property_key st)) as [s|].
      - split; intros [? H]; split; auto; inversion H; reflexivity.
      - split; intros [? H]; discriminate. }
    unfold settle. rewrite Hp. simpl. unfold run, on_current_status, bind, lift, act.
    rewrite Hic.
    destruct (strict_eq ic (VNum 2)) eqn:E1; simpl in *.
    + rewrite Hst.
      destruct (strict_eq (ha_state_of st) (VStr HA_STATES.PAUSED)) eqn:E2; simpl;
        split; intros H.
      * apply added_app. reflexivity.
      * exfalso. apply H, Hcond. reflexivity.
      * apply Hcond in H. discriminate.
      * apply added_app. reflexivity.
    + split; intros H.
      * apply Hcond in H. discriminate.
      * apply added_app. reflexivity.
Qed.

Lemma start_resumes_or_starts_witness :
  let w' := handleCommand "start" (initial VUndef) in
  added w' (settle sample_env 0
              (Resolve (VObj [("state", VStr "PAUSED"); ("in_cleaning", VNum 2)])) w')
  = [Call resumeCleaningZone].
Proof.
  intros w'.
  apply (start_resumes_or_starts sample_env (initial VUndef)) with
    (in_cleaning := VNum 2) (st := VStr "PAUSED").
  - reflexivity.
  - reflexivity.
  - reflexivity.
  - split; [reflexivity | vm_compute; reflexivity].
Defined.

(** ** What a handler may add to the trace *)

Lemma extends_refl Q w : extends Q w w.
Proof. exists []. split; [symmetry; apply app_nil_r | constructor]. Qed.

Lemma extends_same Q w w' : trace w' = trace w → extends Q w w'.
Proof. intros H. exists []. split; [rewrite H; symmetry; apply app_nil_r | constructor]. Qed.

Lemma extends_trans Q w1 w2 w3 : extends Q w1 w2 → extends Q w2 w3 → extends Q w1 w3.
Proof.
  intros (l1 & H1 & F1) (l2 & H2 & F2). exists (l1 ++ l2)%list. split.
  - rewrite H2, H1. symmetry. apply app_assoc.
  - apply Forall_app. split; assumption.
Qed.

Lemma extends_added Q w w' e : extends Q w w' → e ∈ added w w' → Q e.
Proof.
  intros (l & H & F) Hin. rewrite (added_app _ _ _ H) in Hin.
  rewrite Forall_forall in F. apply F, Hin.
Qed.

Lemma keeps_id Q : keeps Q (fun w => w).
Proof. intros w. apply extends_refl. Qed.

Lemma keeps_emit Q e : Q e → keeps Q (emit e).
Proof. intros H w. exists [e]. split; [reflexivity | repeat constructor; exact H]. Qed.

Lemma keeps_compose Q f g : keeps Q f → keeps Q g → keeps Q (fun w => g (f w)).
Proof. intros Hf Hg w. eapply extends_trans; [apply Hf | apply Hg]. Qed.

Lemma keeps_call_then Q op r : Q (Call op) → keeps Q (call_then op r).
Proof. intros H w. exists [Call op]. split; [reflexivity | repeat constructor; exact H]. Qed.

Lemma keeps_call_ Q op : Q (Call op) → keeps Q (call_ op).
Proof. intros H. apply keeps_emit, H. Qed.

Lemma mkeeps_ret {A} Q (a : A) : mkeeps Q (ret a).
Proof. intros w. apply extends_refl. Qed.

Lemma mkeeps_lift {A} Q (o : option A) : mkeeps Q (lift o).
Proof. intros w. apply extends_refl. Qed.

Lemma mkeeps_read {A} Q (f : World → A) : mkeeps Q (read f).
Proof. intros w. apply extends_refl. Qed.

Lemma mkeeps_act Q f : keeps Q f → mkeeps Q (act f).
Proof. intros H w. apply H. Qed.

Lemma mkeeps_bind {A B} Q (m : M A) (k : A → M B) :
  mkeeps Q m → (∀ a, mkeeps Q (k a)) → mkeeps Q (bind m k).
Proof.
  intros Hm Hk w. unfold bind. specialize (Hm w).
  destruct (m w) as [w' [a|]]; simpl in *.
  - eapply extends_trans; [exact Hm | apply Hk].
  - exact Hm.
Qed.

Lemma keeps_catch Q (m : M unit) h : mkeeps Q m → keeps Q h → keeps Q (catch m h).
Proof.
  intros Hm Hh w. unfold catch. specialize (Hm w).
  destruct (m w) as [w' [a|]]; simpl in *.
  - exact Hm.
  - eapply extends_trans; [exact Hm | apply Hh].
Qed.

Lemma keeps_run Q (m : M unit) : mkeeps Q m → keeps Q (run m).
Proof. intros Hm w. apply Hm. Qed.

Lemma keeps_weaken (Q Q' : Effect → Prop) f :
  (∀ e, Q e → Q' e) → keeps Q f → keeps Q' f.
Proof.
  intros HQ Hf w. destruct (Hf w) as (l & H & F). exists l. split; [exact H|].
  eapply Forall_impl; eauto.
Qed.

Ltac keeps_tac :=
  repeat match goal with
    | |- mkeeps _ (ret _) => apply mkeeps_ret
    | |- mkeeps _ (lift _) => apply mkeeps_lift
    | |- mkeeps _ (read _) => apply mkeeps_read
    | |- mkeeps _ (bind _ _) => apply mkeeps_bind; [|intros ?]
    | |- mkeeps _ (act _) => apply mkeeps_act
    | |- mkeeps _ (if ?b then _ else _) => destruct b
    | |- keeps _ (if ?b then _ else _) => destruct b
    | |- keeps _ (call_then _ _) => apply keeps_call_then
    | |- keeps _ (call_ _) => apply keeps_call_
    | |- keeps _ (emit _) => apply keeps_emit
    | |- keeps _ (catch _ _) => apply keeps_catch
    | |- keeps _ (run _) => apply keeps_run
    | |- keeps _ (fun w => w) => apply keeps_id
    end.

Lemma keeps_schedule env : keeps (aggregator_effect env) (schedule env).
Proof.
  intros w. exists [SetTimeout (next_id w) (attributesUpdateInterval env)].
  split; [reflexivity | repeat constructor].
Qed.

Lemma keeps_clearTimeout env t : keeps (aggregator_effect env) (clearTimeout t).
Proof. intros w. exists [ClearTimeout t]. split; [reflexivity | repeat constructor]. Qed.

Lemma keeps_publish_if_changed env response :
  keeps (aggregator_effect env) (publish_if_changed env response).
Proof.
  intros w. unfold publish_if_changed.
  destruct (negb _); [|apply extends_refl].
  eexists [_]. split; [reflexivity | repeat constructor].
Qed.

Lemma keeps_updateAttributesTopic env :
  keeps (aggregator_effect env) (updateAttributesTopic env).
Proof.
  intros w. unfold updateAttributesTopic.
  set (w1 := match attributesUpdateTimeout w with Some t => clearTimeout t w | None => w end).
  assert (H1 : extends (aggregator_effect env) w w1).
  { subst w1. destruct (attributesUpdateTimeout w); [apply keeps_clearTimeout | apply extends_refl]. }
  eapply extends_trans; [exact H1|].
  destruct (is_connected w1).
  - apply keeps_call_then. constructor.
  - apply keeps_schedule.
Qed.

Lemma mkeeps_assemble_response (Q : Effect → Prop) env res res2 :
  (∀ r, Q (Call (getCleanRecord r))) →
  mkeeps Q (assemble_response env res res2).
Proof. intros HQ. unfold assemble_response. keeps_tac. apply HQ. Qed.

Lemma mkeeps_on_clean_summary env res res2 :
  mkeeps (aggregator_effect env) (on_clean_summary env res res2).
Proof.
  unfold on_clean_summary. keeps_tac.
  - apply mkeeps_assemble_response. constructor.
  - apply keeps_publish_if_changed.
  - apply keeps_schedule.
Qed.

Lemma mkeeps_on_clean_record env data :
  mkeeps (aggregator_effect env) (on_clean_record env data).
Proof.
  unfold on_clean_record. keeps_tac. intros w. apply extends_same. reflexivity.
Qed.

Lemma keeps_log_schedule env :
  keeps (aggregator_effect env) (fun w => schedule env (emit LogError w)).
Proof.
  apply (keeps_compose _ (emit LogError) (schedule env)).
  - apply keeps_emit. constructor.
  - apply keeps_schedule.
Qed.

Lemma keeps_react_aggregator env r s :
  aggregator_reaction r = true → keeps (aggregator_effect env) (react env r s).
Proof.
  destruct r, s; simpl; try discriminate; intros _.
  - apply keeps_call_then. constructor.
  - apply keeps_log_schedule.
  - apply keeps_catch; [apply mkeeps_on_clean_summary | apply keeps_log_schedule].
  - apply keeps_log_schedule.
  - apply keeps_catch; [apply mkeeps_on_clean_record | apply keeps_emit; constructor].
  - apply keeps_emit. constructor.
Qed.

(** Removing a settled promise leaves the trace alone. *)
Lemma extends_settle Q env p s w :
  (∀ r, reaction_of p w = Some r → keeps Q (react env r s)) →
  extends Q w (settle env p s w).
Proof.
  intros H. unfold settle. destruct (reaction_of p w) as [r|]; [|apply extends_refl].
  eapply extends_trans; [|apply (H r eq_refl)].
  apply extends_same. reflexivity.
Qed.

Lemma extends_fire env t w : extends (aggregator_effect env) w (fire env t w).
Proof.
  unfold fire. destruct (bool_decide _); [|apply extends_refl].
  eapply extends_trans; [|apply keeps_updateAttributesTopic].
  apply extends_same. reflexivity.
Qed.

(** ** The topics are distinct *)

Lemma append_nil_l (b : string) : "" ++ b = b.
Proof. reflexivity. Qed.

Lemma append_cons (x : ascii) (a b : string) : String x a ++ b = String x (a ++ b).
Proof. reflexivity. Qed.

Lemma append_inv_head (a b c : string) : a ++ b = a ++ c → b = c.
Proof.
  induction a as [|x a IH]; rewrite ?append_nil_l, ?append_cons; intros H;
    [exact H | inversion H; auto].
Qed.

Lemma last_char_append (a b : string) :
  last_char (a ++ b) = match last_char b with Some c => Some c | None => last_char a end.
Proof.
  induction a as [|x a IH]; rewrite ?append_nil_l, ?append_cons; simpl.
  - destruct (last_char b); reflexivity.
  - rewrite IH. destruct (last_char b); reflexivity.
Qed.

Lemma topics_attributes_not_state env : topics_attributes env ≠ topics_state env.
Proof.
  unfold topics_attributes, topics_state. intros H.
  do 3 apply append_inv_head in H. discriminate H.
Qed.

Lemma topics_autoconf_not_state env :
  topics_homeassistant_autoconf_vacuum env ≠ topics_state env.
Proof.
  unfold topics_homeassistant_autoconf_vacuum, topics_state. intros H.
  apply (f_equal last_char) in H. rewrite !last_char_append in H.
  simpl in H. discriminate H.
Qed.

Lemma aggregator_not_state_publish env e :
  aggregator_effect env e → ¬ is_state_publish env e.
Proof.
  intros Ha (payload & r & q & He). destruct Ha; try discriminate He.
  inversion He. eapply topics_attributes_not_state; eassumption.
Qed.

Lemma aggregator_not_drive_home env e : aggregator_effect env e → e ≠ Call driveHome.
Proof. intros Ha He. destruct Ha; discriminate He. Qed.

(** ** The dispatchers issue device calls and log lines only *)

Section Dispatch.
Variable env : Env.
Variable Q : Effect → Prop.
Hypothesis Q_call : ∀ op, op ≠ driveHome → Q (Call op).
Hypothesis Q_error : Q LogError.
Hypothesis Q_info : ∀ m, Q (LogInfo m).

Lemma keeps_handleCommand command : keeps Q (handleCommand command).
Proof.
  intros w. unfold handleCommand.
  repeat case_match;
    first [ apply extends_refl
          | apply keeps_call_then; apply Q_call; discriminate
          | apply keeps_call_; apply Q_call; discriminate ].
Qed.

Lemma keeps_handleFanSpeedRequest speed : keeps Q (handleFanSpeedRequest speed).
Proof.
  intros w. unfold handleFanSpeedRequest. apply keeps_call_, Q_call. discriminate.
Qed.

Lemma keeps_handleCustomCommand message : keeps Q (handleCustomCommand env message).
Proof.
  intros w. unfold handleCustomCommand.
  repeat case_match;
    first [ apply extends_refl
          | apply keeps_emit; solve [apply Q_error | apply Q_info]
          | apply keeps_call_then; apply Q_call; discriminate
          | apply keeps_call_; apply Q_call; discriminate ].
Qed.

Lemma keeps_on_message topic msg : keeps Q (on_message env topic msg).
Proof.
  intros w. unfold on_message. repeat case_match.
  - apply keeps_handleCustomCommand.
  - apply keeps_handleFanSpeedRequest.
  - apply keeps_handleCommand.
  - apply extends_refl.
Qed.

Lemma mkeeps_on_current_status res : mkeeps Q (on_current_status res).
Proof. unfold on_current_status. keeps_tac; apply Q_call; discriminate. Qed.

End Dispatch.

(** ** What each event may add to the trace *)

Section Steps.
Variable env : Env.
Variable Q : Effect → Prop.
Hypothesis Q_call : ∀ op, op ≠ driveHome → Q (Call op).
Hypothesis Q_error : Q LogError.
Hypothesis Q_info : ∀ m, Q (LogInfo m).
Hypothesis Q_agg : ∀ e, aggregator_effect env e → Q e.
Hypothesis Q_connect : ∀ url ca, Q (MqttConnect url ca).
Hypothesis Q_subscribe : ∀ ts q, Q (Subscribe ts q).
Hypothesis Q_autoconf :
  ∀ payload r q, Q (Publish (topics_homeassistant_autoconf_vacuum env) payload r q).

Lemma keeps_react r s :
  (r = OnStopped → (∃ e, s = Reject e) ∨ Q (Call driveHome)) →
  keeps Q (react env r s).
Proof.
  intros Hstop.
  destruct (aggregator_reaction r) eqn:E.
  - eapply keeps_weaken; [exact Q_agg | apply keeps_react_aggregator, E].
  - destruct r; try discriminate E; destruct s; simpl.
    + apply keeps_run, mkeeps_on_current_status. exact Q_call.
    + apply keeps_emit, Q_error.
    + destruct (Hstop eq_refl) as [[e He]|Hq]; [discriminate He|].
      apply keeps_call_, Hq.
    + apply keeps_id.
    + apply keeps_id.
    + apply keeps_emit, Q_error.
Qed.

Lemma mkeeps_updateAttributesTopicOnEvent statusData :
  mkeeps Q (updateAttributesTopicOnEvent env statusData).
Proof.
  unfold updateAttributesTopicOnEvent. keeps_tac.
  - intros w. apply extends_same. reflexivity.
  - eapply keeps_weaken; [exact Q_agg | apply keeps_updateAttributesTopic].
Qed.

Lemma extends_step_no_status w ev :
  (∀ statusData, ev ≠ MiioStatus statusData) →
  (∀ p v, ev = Settles p (Resolve v) → reaction_of p w = Some OnStopped →
          Q (Call driveHome)) →
  extends Q w (step env w ev).
Proof.
  intros Hst Hstop. destruct ev as [fresh|c| |err|topic msg|sd|z|t|p s]; simpl.
  - unfold connect. destruct (should_connect w); [|apply extends_refl].
    eapply extends_trans; [|apply keeps_emit, Q_connect].
    apply extends_same. reflexivity.
  - destruct (client w); [apply extends_same; reflexivity | apply extends_refl].
  - unfold on_connect.
    eapply extends_trans; [apply keeps_emit, Q_info | apply keeps_emit, Q_subscribe].
  - unfold on_subscribed. destruct (negb (truthy err)).
    + apply keeps_emit, Q_autoconf.
    + apply keeps_emit, Q_error.
  - apply keeps_on_message; assumption.
  - exfalso. eapply Hst. reflexivity.
  - apply extends_same. reflexivity.
  - destruct (extends_fire env t w) as (l & H & F). exists l. split; [exact H|].
    eapply Forall_impl; [exact F | exact Q_agg].
  - apply extends_settle. intros r Hr. apply keeps_react. intros ->.
    destruct s as [v|e]; [|eauto].
    right. eapply Hstop; [reflexivity | exact Hr].
Qed.

End Steps.

Lemma mkeeps_updateStatusTopic env (Q : Effect → Prop) statusData :
  (∀ payload r q, Q (Publish (topics_state env) payload r q)) →
  mkeeps Q (updateStatusTopic env statusData).
Proof.
  intros HQ. unfold updateStatusTopic. cbv zeta. keeps_tac. apply HQ.
Qed.

(** A status event either finds the client connected and a battery reading,
    or adds no publish on the state topic. *)
Lemma miio_status_cases env statusData w :
  (is_connected w = true
   ∧ ∃ b, get_prop statusData "battery" = Some b ∧ b ≠ VUndef)
  ∨ extends (fun e => ¬ is_state_publish env e) w (run (on_miio_status env statusData) w).
Proof.
  assert (Hev : mkeeps (fun e => ¬ is_state_publish env e)
                  (updateAttributesTopicOnEvent env statusData)).
  { unfold updateAttributesTopicOnEvent. keeps_tac.
    - intros w0. apply extends_same. reflexivity.
    - eapply keeps_weaken; [apply aggregator_not_state_publish
                           | apply keeps_updateAttributesTopic]. }
  destruct (is_connected w) eqn:Ec.
  - destruct (get_prop statusData "battery") as [b|] eqn:Eb.
    + destruct (strict_eq b VUndef) eqn:Eu.
      * right. unfold run, on_miio_status, updateStatusTopic, bind at 1 2 3, read, lift.
        rewrite Ec, Eb, Eu. simpl. apply Hev.
      * left. split; [reflexivity|]. exists b. split; [reflexivity|].
        intros ->. discriminate Eu.
    + right. unfold run, on_miio_status, updateStatusTopic, bind, read, lift.
      rewrite Ec, Eb. simpl. apply extends_refl.
  - right. unfold run, on_miio_status, updateStatusTopic, bind at 1 2, read.
    rewrite Ec. simpl. apply Hev.
Qed.

Lemma extends_step_not_drive_home env w ev :
  (∀ p v, ev = Settles p (Resolve v) → reaction_of p w ≠ Some OnStopped) →
  extends (fun e => e ≠ Call driveHome) w (step env w ev).
Proof.
  intros Hstop.
  destruct (match ev with MiioStatus _ => true | _ => false end) eqn:Ev.
  - destruct ev; try discriminate Ev. simpl.
    apply keeps_run. unfold on_miio_status. keeps_tac.
    + apply mkeeps_updateStatusTopic. intros; discriminate.
    + apply mkeeps_updateAttributesTopicOnEvent. apply aggregator_not_drive_home.
  - apply extends_step_no_status.
    + intros op Hop Heq. inversion Heq. contradiction.
    + discriminate.
    + discriminate.
    + apply aggregator_not_drive_home.
    + discriminate.
    + discriminate.
    + discriminate.
    + intros sd ->. discriminate Ev.
    + intros p v Heq Hr. exfalso. eapply Hstop; eassumption.
Qed.

(** C6: "return_to_base" issues the stop call and nothing else; the
    drive-home call is issued when the promise of that stop call is
    fulfilled, nothing is issued when it is rejected, and no other event of
    the client issues a drive-home call. *)
Theorem return_to_base_stops_then_drives_home (env : Env) (w : World) :
  added w (handleCommand "return_to_base" w) = [Call stopCleaning]
  ∧ promises (handleCommand "return_to_base" w)
    = (promises w ++ [(next_id w, OnStopped)])%list
  ∧ (∀ w' p v, reaction_of p w' = Some OnStopped →
               added w' (settle env p (Resolve v) w') = [Call driveHome])
  ∧ (∀ w' p e, reaction_of p w' = Some OnStopped →
               added w' (settle env p (Reject e) w') = [])
  ∧ (∀ w' ev, Call driveHome ∈ added w' (step env w' ev) →
              ∃ p v, ev = Settles p (Resolve v) ∧ reaction_of p w' = Some OnStopped).
Proof.
  split; [apply added_call_then|]. split; [reflexivity|].
  split; [|split].
  - intros w' p v Hp. unfold settle. rewrite Hp. apply added_app. reflexivity.
  - intros w' p e Hp. unfold settle. rewrite Hp. apply added_app.
    simpl. symmetry. apply app_nil_r.
  - intros w' ev Hin.
    assert (Hdec : (∃ p v, ev = Settles p (Resolve v) ∧ reaction_of p w' = Some OnStopped)
                   ∨ (∀ p v, ev = Settles p (Resolve v) → reaction_of p w' ≠ Some OnStopped)).
    { destruct ev as [| | | | | | | |p [v|e]]; try (right; intros; discriminate).
      destruct (reaction_of p w') as [[]|] eqn:Er;
        try (right; intros p' v' Heq; inversion Heq; subst; rewrite Er; discriminate).
      left. exists p, v. split; [reflexivity | exact Er]. }
    destruct Hdec as [H|H]; [exact H|].
    exfalso.
    apply (extends_added _ _ _ _ (extends_step_not_drive_home env w' ev H) Hin).
    reflexivity.
Qed.

Lemma return_to_base_stops_then_drives_home_witness :
  let w' := handleCommand "return_to_base" (initial VUndef) in
  added w' (settle sample_env 0 (Resolve VUndef) w') = [Call driveHome]
  ∧ added w' (settle sample_env 0 (Reject VUndef) w') = [].
Proof.
  intros w'.
  destruct (return_to_base_stops_then_drives_home sample_env (initial VUndef))
    as (_ & _ & Hres & Hrej & _).
  split; [apply Hres | apply Hrej]; reflexivity.
Defined.

(** ** updateStatusTopic *)

Lemma extends_step_no_state_publish env w ev :
  (∀ statusData, ev ≠ MiioStatus statusData) →
  extends (fun e => ¬ is_state_publish env e) w (step env w ev).
Proof.
  intros Hev. apply extends_step_no_status.
  - intros op _ (payload & r & q & H). discriminate H.
  - intros (payload & r & q & H). discriminate H.
  - intros m (payload & r & q & H). discriminate H.
  - apply aggregator_not_state_publish.
  - intros url ca (payload & r & q & H). discriminate H.
  - intros ts q0 (payload & r & q & H). discriminate H.
  - intros payload0 r0 q0 (payload & r & q & H). inversion H.
    eapply topics_autoconf_not_state; eassumption.
  - exact Hev.
  - intros p v _ _ (payload & r & q & H). discriminate H.
Qed.

(** C8: a status event whose battery reading is undefined adds no publish on
    the state topic; whatever the event, a publish on the state topic is
    added only by a status event that finds the client connected and carries
    a defined battery reading. *)
Theorem state_publish_needs_battery (env : Env) (w : World) :
  (∀ statusData e,
     get_prop statusData "battery" = Some VUndef →
     e ∈ added w (step env w (MiioStatus statusData)) →
     ¬ is_state_publish env e)
  ∧ (∀ ev e,
       e ∈ added w (step env w ev) →
       is_state_publish env e →
       ∃ statusData b,
         ev = MiioStatus statusData
         ∧ is_connected w = true
         ∧ get_prop statusData "battery" = Some b
         ∧ b ≠ VUndef).
Proof.
  assert (Honly : ∀ ev e,
             e ∈ added w (step env w ev) →
             is_state_publish env e →
             ∃ statusData b,
               ev = MiioStatus statusData
               ∧ is_connected w = true
               ∧ get_prop statusData "battery" = Some b
               ∧ b ≠ VUndef).
  { intros ev e Hin Hpub.
    destruct (match ev with MiioStatus _ => true | _ => false end) eqn:Ev.
    - destruct ev as [| | | | |sd| | |]; try discriminate Ev.
      destruct (miio_status_cases env sd w) as [(Hc & b & Hb & Hne)|Hext].
      + exists sd, b. auto.
      + exfalso. exact (extends_added _ _ _ _ Hext Hin Hpub).
    - exfalso.
      assert (Hext : extends (fun e => ¬ is_state_publish env e) w (step env w ev)).
      { apply extends_step_no_state_publish. intros sd ->. discriminate Ev. }
      exact (extends_added _ _ _ _ Hext Hin Hpub). }
  split; [|exact Honly].
  intros sd e Hb Hin Hpub.
  destruct (Honly _ _ Hin Hpub) as (sd' & b & Heq & _ & Hb' & Hne).
  inversion Heq; subst sd'. rewrite Hb in Hb'. inversion Hb'. congruence.
Qed.

Lemma state_publish_needs_battery_witness :
  Forall (fun e => ¬ is_state_publish sample_env e)
    (added (set_client (Some online) (initial VUndef))
       (step sample_env (set_client (Some online) (initial VUndef))
          (MiioStatus (VObj [("state", VStr "CLEANING"); ("fan_power", VNum 60)])))).
Proof.
  apply Forall_forall. intros e.
  apply (state_publish_needs_battery sample_env (set_client (Some online) (initial VUndef))).
  reflexivity.
Defined.

(** ** handleCustomCommand: zoned_cleanup *)

Lemma includes_spec (zones : list jsval) (v : jsval) :
  includes zones v = true ↔ ∃ entry, entry ∈ zones ∧ strict_eq entry v = true.
Proof.
  unfold includes. rewrite existsb_exists. split.
  - intros (x & Hin & Hx). exists x. split; [apply list_elem_of_In, Hin | exact Hx].
  - intros (x & Hin & Hx). exists x. split; [apply list_elem_of_In, Hin | exact Hx].
Qed.

Lemma matched_zone_ids_spec env (zones : list jsval) (id : jsval) :
  id ∈ matched_zone_ids env zones
  ↔ ∃ zone, zone ∈ getZones env ∧ zone_id zone = id ∧ zone_selected zones zone.
Proof.
  unfold matched_zone_ids, zone_selected. rewrite list_elem_of_In, in_map_iff. split.
  - intros (zone & Hid & Hin). apply filter_In in Hin as [Hin Hsel].
    exists zone. split; [apply list_elem_of_In, Hin|]. split; [exact Hid|].
    apply orb_true_iff in Hsel as [H|H]; apply includes_spec in H as (x & ? & ?);
      exists x; auto.
  - intros (zone & Hin & Hid & x & Hx & Hsel). exists zone. split; [exact Hid|].
    apply filter_In. split; [apply list_elem_of_In, Hin|].
    apply orb_true_iff. destruct Hsel as [H|H]; [left|right];
      apply includes_spec; exists x; auto.
Qed.

(** C4 as stated fails: with the entry "7" given as a string, the zone whose
    identifier is the number 7 is not matched and the request is for [3]
    only. *)
Lemma zoned_cleanup_string_id_not_matched :
  added (initial VUndef)
    (handleCustomCommand sample_env (stringify_str zoned_cleanup_strings) (initial VUndef))
  = [Call (startCleaningZonesById [VNum 3])]
  ∧ added (initial VUndef)
      (handleCustomCommand sample_env (stringify_str zoned_cleanup_strings) (initial VUndef))
    ≠ [Call (startCleaningZonesById [VNum 3; VNum 7])].
Proof. split; [vm_compute; reflexivity | vm_compute; discriminate]. Qed.

(** C4 (amended): for a zoned_cleanup command with a non-empty [zone_ids]
    array, one cleaning request is submitted; it carries, in the order of the
    zone table, the identifier of every configured zone whose name or whose
    identifier is strictly equal (same type, same value) to an entry of the
    array. *)
Theorem zoned_cleanup_requests_matched_zones
    (env : Env) (message : string) (msg : jsval) (zones : list jsval) (w : World) :
  JSON_parse env message = Some msg →
  get_prop msg "command" = Some (VStr "zoned_cleanup") →
  get_prop msg "zone_ids" = Some (VArr zones) →
  zones ≠ [] →
  added w (handleCustomCommand env message w)
  = [Call (startCleaningZonesById (matched_zone_ids env zones))]
  ∧ ∀ id, id ∈ matched_zone_ids env zones
          ↔ ∃ zone, zone ∈ getZones env ∧ zone_id zone = id ∧ zone_selected zones zone.
Proof.
  intros Hparse Hcmd Hzones Hne. split; [|apply matched_zone_ids_spec].
  unfold handleCustomCommand. rewrite Hparse, Hcmd, Hzones. simpl.
  assert (Ht : truthy msg = true).
  { destruct msg; simpl in *; try discriminate; reflexivity. }
  rewrite Ht. simpl. destruct zones as [|z zs]; [contradiction|].
  apply added_call_then.
Qed.

Lemma zoned_cleanup_requests_matched_zones_witness :
  added (initial VUndef)
    (handleCustomCommand sample_env (stringify_str zoned_cleanup_mixed) (initial VUndef))
  = [Call (startCleaningZonesById [VNum 3; VNum 7])].
Proof.
  apply (zoned_cleanup_requests_matched_zones sample_env
           (stringify_str zoned_cleanup_mixed) zoned_cleanup_mixed
           [VStr "Kitchen"; VNum 7] (initial VUndef)).
  - vm_compute. reflexivity.
  - reflexivity.
  - reflexivity.
  - discriminate.
Defined.

(** ** Codec.handleResponse *)

Lemma bytes_eqb_eq (a b : list byte) : Codec.bytes_eqb a b = true ↔ a = b.
Proof.
  revert b. induction a as [|x a IH]; intros [|y b]; simpl; split; intros H;
    try reflexivity; try discriminate.
  - apply andb_true_iff in H as [Hx Hr]. apply Byte.byte_dec_bl in Hx.
    apply IH in Hr. congruence.
  - inversion H; subst. apply andb_true_iff. split.
    + apply Byte.byte_dec_lb. reflexivity.
    + apply IH. reflexivity.
Qed.

Lemma length_positive_nonempty {A} (l : list A) : Nat.ltb 0 (List.length l) = true ↔ l ≠ [].
Proof.
  destruct l; simpl; split; intros H; try reflexivity; try discriminate.
  contradiction.
Qed.

(** C10: whenever [handleResponse] returns, at most one of [msg] and [token]
    is non-null; [token] is non-null only when the checksum differs from the
    digest and the payload is empty; [msg] is non-null only when the checksum
    matches and the payload is non-empty; with a wrong checksum and a
    non-empty payload both are null and the error has been logged. The call
    can only fail to return on the decrypt-and-parse path, that is with a
    matching checksum and a non-empty payload. *)
Theorem handleResponse_msg_or_token
    (md5 : list byte → list byte)
    (aes_128_cbc_decrypt : list byte → list byte → list byte → option (list byte))
    (toString : list byte → string) (JSON_parse : string → option jsval)
    (c : Codec.Codec) (response : list byte) :
  let checksum := Codec.checksum_of response in
  let digest := Codec.digest_of md5 c response in
  let encrypted := Codec.encrypted_of response in
  match Codec.handleResponse md5 aes_128_cbc_decrypt toString JSON_parse c response with
  | Codec.Returned r logged =>
      (Codec.msg r = VNull ∨ Codec.token r = None)
      ∧ (Codec.token r ≠ None → checksum ≠ digest ∧ encrypted = [])
      ∧ (Codec.msg r ≠ VNull → checksum = digest ∧ encrypted ≠ [])
      ∧ (checksum ≠ digest → encrypted ≠ [] →
         Codec.msg r = VNull ∧ Codec.token r = None ∧ logged = true)
  | Codec.Thrown => checksum = digest ∧ encrypted ≠ []
  end.
Proof.
  intros checksum digest encrypted. unfold Codec.handleResponse.
  fold checksum digest encrypted.
  destruct (Codec.bytes_eqb checksum digest) eqn:Eck; simpl.
  - apply bytes_eqb_eq in Eck.
    destruct (Nat.ltb 0 (List.length encrypted)) eqn:Elen.
    + apply length_positive_nonempty in Elen.
      destruct (aes_128_cbc_decrypt _ _ encrypted) as [plain|]; [|auto].
      destruct (JSON_parse _) as [m|]; [|auto]. simpl.
      repeat (first [split | intro]); try congruence; auto.
    + simpl. repeat (first [split | intro]); try congruence; auto.
  - assert (Hne : checksum ≠ digest).
    { intros H. apply bytes_eqb_eq in H. congruence. }
    destruct (Nat.ltb 0 (List.length encrypted)) eqn:Elen; simpl.
    + repeat (first [split | intro]); try congruence; auto.
    + assert (Hemp : encrypted = []).
      { destruct encrypted; [reflexivity | discriminate Elen]. }
      repeat (first [split | intro]); try congruence; auto.
Qed.

Lemma handleResponse_msg_or_token_witness :
  match Codec.handleResponse (fun _ => replicate 16 x01) (fun _ _ d => Some d)
          (fun _ => "") (fun _ => Some VNull)
          (Codec.setToken (fun _ => replicate 16 x01) (replicate 16 x00))
          (replicate 32 x00) with
  | Codec.Returned r logged => Codec.token r ≠ None ∧ Codec.msg r = VNull
  | Codec.Thrown => False
  end.
Proof.
  pose proof (handleResponse_msg_or_token (fun _ => replicate 16 x01) (fun _ _ d => Some d)
                (fun _ => "") (fun _ => Some VNull)
                (Codec.setToken (fun _ => replicate 16 x01) (replicate 16 x00))
                (replicate 32 x00)) as H.
  vm_compute in H. vm_compute. destruct H as ([H|H] & _); [|discriminate H].
  split; [discriminate | exact H].
Defined.

(** ** The publish decision of the aggregator *)

(** C3 as stated fails: the snapshot assembled by the second cycle equals the
    last published one up to the order of the fields of its zone status, and
    it is published again. *)
Lemma reordered_snapshot_is_republished :
  let after := step sample_env before_second_summary
                 (Settles 5 (Resolve sample_summary_no_history)) in
  structurally_equal (last_attributes after) (last_attributes before_second_summary) = true
  ∧ added before_second_summary after
    = [ Publish (topics_attributes sample_env) (stringify_str (last_attributes after)) true 0;
        SetTimeout 6 60000 ].
Proof. vm_compute. split; reflexivity. Qed.

(** C3 (amended): the assembled snapshot is compared with the last published
    one by equality of their JSON serialisations, which depends on the order
    of the fields. Equal serialisations: nothing is published and the stored
    snapshot stays. Different serialisations: the snapshot is published
    retained on the attributes topic and becomes the stored one. Offering
    the same snapshot twice in a row publishes it at most once, and exactly
    once when it differs from the stored one. *)
Theorem attributes_published_when_serialisation_differs
    (env : Env) (response : jsval) (w : World) :
  (stringify response = stringify (last_attributes w) →
     publish_if_changed env response w = w)
  ∧ (stringify response ≠ stringify (last_attributes w) →
       publish_if_changed env response w
       = set_last_attributes response
           (emit (Publish (topics_attributes env) (stringify_str response) true (qos env)) w)
       ∧ added w (publish_if_changed env response (publish_if_changed env response w))
         = [Publish (topics_attributes env) (stringify_str response) true (qos env)])
  ∧ publish_if_changed env response (publish_if_changed env response w)
    = publish_if_changed env response w.
Proof.
  assert (Hsame : ∀ w0, stringify response = stringify (last_attributes w0) →
                        publish_if_changed env response w0 = w0).
  { intros w0 H. unfold publish_if_changed. rewrite bool_decide_eq_true_2; [reflexivity | exact H]. }
  assert (Hdiff : stringify response ≠ stringify (last_attributes w) →
                  publish_if_changed env response w
                  = set_last_attributes response
                      (emit (Publish (topics_attributes env) (stringify_str response) true (qos env)) w)).
  { intros H. unfold publish_if_changed. rewrite bool_decide_eq_false_2; [reflexivity | exact H]. }
  split; [apply Hsame|]. split.
  - intros H. split; [apply Hdiff, H|].
    rewrite (Hdiff H). rewrite Hsame; [|reflexivity].
    apply added_app. reflexivity.
  - destruct (decide (stringify response = stringify (last_attributes w))) as [H|H].
    + rewrite !(Hsame w H). reflexivity.
    + rewrite (Hdiff H). apply Hsame. reflexivity.
Qed.

Lemma attributes_published_when_serialisation_differs_witness :
  publish_if_changed sample_env (VObj []) (initial VUndef) = initial VUndef
  ∧ added (initial VUndef)
      (publish_if_changed sample_env (VObj [("state", VStr "idle")])
         (publish_if_changed sample_env (VObj [("state", VStr "idle")]) (initial VUndef)))
    = [Publish (topics_attributes sample_env)
         (stringify_str (VObj [("state", VStr "idle")])) true 0].
Proof.
  split.
  - destruct (attributes_published_when_serialisation_differs sample_env (VObj [])
                (initial VUndef)) as (Hsame & _ & _).
    apply Hsame. reflexivity.
  - destruct (attributes_published_when_serialisation_differs sample_env
                (VObj [("state", VStr "idle")]) (initial VUndef)) as (_ & Hdiff & _).
    apply Hdiff. vm_compute. discriminate.
Defined.

(** ** The order of the steps of an aggregation cycle *)

(** C9 as stated fails: when the clean summary arrives, the snapshot is
    assembled and published at once, with an empty last-run record, while the
    promise of the record fetch (promise 3) is still pending; when that
    promise is fulfilled later, nothing is published. *)
Lemma snapshot_published_while_record_pending :
  let after := step sample_env before_first_summary (Settles 2 (Resolve sample_summary)) in
  reaction_of 3 after = Some OnCleanRecord
  ∧ added before_first_summary after
    = [ Call (getCleanRecord (VNum 1600000000));
        Publish (topics_attributes sample_env) (stringify_str (last_attributes after)) true 0;
        SetTimeout 4 60000 ]
  ∧ get_prop (last_attributes after) "last_run_stats" = Some (VObj [])
  ∧ added after (step sample_env after (Settles 3 (Resolve sample_record))) = [].
Proof. vm_compute. repeat split; reflexivity. Qed.

(** C9 (amended): the clean summary is requested when the consumable status
    has arrived. When the clean summary arrives with a non-empty history, the
    record fetch is started and not awaited: in the same reaction the snapshot
    is assembled with the last-run record cached at that moment (from an
    earlier cycle, or empty), compared, published if it changed, and the next
    cycle is scheduled. When the record fetch settles later, a fulfilment only
    replaces the cached record and a failure is only logged; the cache is
    then left as it was. *)
Theorem record_fetch_is_not_awaited (env : Env) (w : World) (p : nat) :
  let w0 := set_promises (List.filter (fun pr => negb (Nat.eqb (fst pr) p)) (promises w)) w in
  (∀ res, reaction_of p w = Some OnConsumableStatus →
          settle env p (Resolve res) w = call_then getCleanSummary (OnCleanSummary res) w0)
  ∧ (∀ fs t0 t1 cleanCount r0 rest more,
       reaction_of p w = Some (OnCleanSummary (VObj fs)) →
       settle env p
         (Resolve (VArr (t0 :: t1 :: cleanCount :: VArr (r0 :: rest) :: more))) w
       = schedule env
           (publish_if_changed env
              (attributes_snapshot env t0 t1 cleanCount (last_run_stats w)
                 (default VUndef (assoc "main_brush_work_time" fs))
                 (default VUndef (assoc "side_brush_work_time" fs))
                 (default VUndef (assoc "filter_work_time" fs))
                 (default VUndef (assoc "sensor_dirty_time" fs))
                 (last_ha_state w) (last_state w) (zoneCleaningStatus w))
              (call_then (getCleanRecord (parseInt env r0)) OnCleanRecord w0)))
  ∧ (∀ err, reaction_of p w = Some OnCleanRecord →
            settle env p (Reject err) w = emit LogError w0)
  ∧ (∀ startTime endTime duration area errorCode finished more more',
       reaction_of p w = Some OnCleanRecord →
       settle env p
         (Resolve (VArr (VArr (startTime :: endTime :: duration :: area :: errorCode
                                 :: finished :: more) :: more'))) w
       = set_last_run_stats
           (VObj [ ("startTime", times1000 env startTime);
                   ("endTime", times1000 env endTime);
                   ("duration", duration);
                   ("area", VStr (div1e6_fixed1 env area));
                   ("errorCode", errorCode);
                   ("errorDescription", GET_ERROR_CODE_DESCRIPTION env errorCode);
                   ("finishedFlag", VBool (strict_eq finished (VNum 1))) ]) w0).
Proof.
  intros w0. repeat split.
  - intros res Hp. unfold settle. rewrite Hp. reflexivity.
  - intros fs t0 t1 cleanCount r0 rest more Hp. unfold settle. rewrite Hp.
    reflexivity.
  - intros err Hp. unfold settle. rewrite Hp. reflexivity.
  - intros startTime endTime duration area errorCode finished more more' Hp.
    unfold settle. rewrite Hp. reflexivity.
Qed.

Lemma record_fetch_is_not_awaited_witness :
  reaction_of 3 (settle sample_env 2 (Resolve sample_summary) before_first_summary)
  = Some OnCleanRecord
  ∧ last_run_stats (settle sample_env 2 (Resolve sample_summary) before_first_summary)
    = VUndef.
Proof.
  destruct (record_fetch_is_not_awaited sample_env before_first_summary 2)
    as (_ & H & _ & _).
  specialize (H [ ("main_brush_work_time", VNum 36000);
                  ("side_brush_work_time", VNum 36000);
                  ("filter_work_time", VNum 36000);
                  ("sensor_dirty_time", VNum 36000) ]
                (VNum 7200) (VNum 25000000) (VNum 4) (VNum 1600000000) [] []
                eq_refl).
  unfold sample_summary. rewrite H. vm_compute. split; reflexivity.
Defined.

(** ** Rescheduling *)

Lemma scheduled_app (l1 l2 : list Effect) :
  scheduled (l1 ++ l2) = (scheduled l1 + scheduled l2)%nat.
Proof. unfold scheduled. rewrite List.filter_app, length_app. reflexivity. Qed.

Lemma added_trans Q Q' w1 w2 w3 :
  extends Q w1 w2 → extends Q' w2 w3 →
  added w1 w3 = (added w1 w2 ++ added w2 w3)%list.
Proof.
  intros (l1 & H1 & _) (l2 & H2 & _).
  rewrite (added_app _ _ _ H1), (added_app _ _ _ H2).
  apply added_app. rewrite H2, H1. symmetry. apply app_assoc.
Qed.

Lemma extends_not_scheduled w w' :
  extends (fun e => is_set_timeout e = false) w w' → scheduled (added w w') = 0%nat.
Proof.
  intros (l & H & F). rewrite (added_app _ _ _ H). clear H.
  induction F as [|e l He _ IH]; [reflexivity|].
  unfold scheduled in *. simpl. rewrite He. exact IH.
Qed.

Lemma scheduled_schedule env w : scheduled (added w (schedule env w)) = 1%nat.
Proof. erewrite added_app; [|reflexivity]. reflexivity. Qed.

(** After effects that are no timers, [schedule] makes it exactly one. *)
Lemma scheduled_then_schedule env w w1 :
  extends (fun e => is_set_timeout e = false) w w1 →
  scheduled (added w (schedule env w1)) = 1%nat.
Proof.
  intros H.
  rewrite (added_trans _ (fun _ => True) w w1 (schedule env w1) H).
  - rewrite scheduled_app, (extends_not_scheduled _ _ H), scheduled_schedule. reflexivity.
  - eexists [_]. split; [reflexivity | repeat constructor].
Qed.

Lemma extends_log_not_timer w :
  extends (fun e => is_set_timeout e = false) w (emit LogError w).
Proof. apply keeps_emit. reflexivity. Qed.

(** The reaction to the clean summary schedules exactly one cycle, whether it
    runs to its end or throws on the way. *)
Lemma clean_summary_schedules_once env res res2 w :
  scheduled
    (added w (catch (on_clean_summary env res res2)
                (fun w' => schedule env (emit LogError w')) w)) = 1%nat.
Proof.
  pose proof (mkeeps_assemble_response (fun e => is_set_timeout e = false) env res res2
                (fun _ => eq_refl) w) as Hasm.
  unfold catch, on_clean_summary, bind, act.
  destruct (assemble_response env res res2 w) as [w1 [response|]]; simpl in *.
  - apply scheduled_then_schedule.
    eapply extends_trans; [exact Hasm|].
    unfold publish_if_changed. destruct (negb _); [|apply extends_refl].
    eexists [_]. split; [reflexivity | repeat constructor].
  - apply scheduled_then_schedule.
    eapply extends_trans; [exact Hasm | apply extends_log_not_timer].
Qed.

(** Every outcome of a cycle schedules exactly one future cycle: a cycle that
    finds the client not connected does so at once; a connected cycle
    schedules nothing until the consumable status settles; a failure of that
    fetch schedules one cycle, its success schedules nothing and requests the
    clean summary; and however the clean summary settles, one cycle is
    scheduled. *)
Lemma every_outcome_schedules_once env w :
  (is_connected w = false → scheduled (added w (updateAttributesTopic env w)) = 1%nat)
  ∧ (is_connected w = true → scheduled (added w (updateAttributesTopic env w)) = 0%nat)
  ∧ (∀ p, reaction_of p w = Some OnConsumableStatus →
          (∀ err, scheduled (added w (settle env p (Reject err) w)) = 1%nat)
          ∧ (∀ res, scheduled (added w (settle env p (Resolve res) w)) = 0%nat))
  ∧ (∀ p res s, reaction_of p w = Some (OnCleanSummary res) →
                scheduled (added w (settle env p s w)) = 1%nat).
Proof.
  assert (Hclear : ∀ w0 : World,
             is_connected
               (match attributesUpdateTimeout w0 with
                | Some t => clearTimeout t w0
                | None => w0
                end) = is_connected w0
             ∧ extends (fun e => is_set_timeout e = false) w0
                 (match attributesUpdateTimeout w0 with
                  | Some t => clearTimeout t w0
                  | None => w0
                  end)).
  { intros w0. destruct (attributesUpdateTimeout w0) as [t|].
    - split; [reflexivity|]. eexists [_]. split; [reflexivity | repeat constructor].
    - split; [reflexivity | apply extends_refl]. }
  repeat split.
  - intros Hc. unfold updateAttributesTopic.
    destruct (Hclear w) as [Hc' Hext]. rewrite Hc', Hc.
    apply scheduled_then_schedule, Hext.
  - intros Hc. unfold updateAttributesTopic.
    destruct (Hclear w) as [Hc' Hext]. rewrite Hc', Hc.
    apply extends_not_scheduled.
    eapply extends_trans; [exact Hext | apply keeps_call_then; reflexivity].
  - intros err. unfold settle. rewrite H. simpl.
    apply scheduled_then_schedule.
    eapply extends_trans; [|apply extends_log_not_timer].
    apply extends_same. reflexivity.
  - intros res. unfold settle. rewrite H. simpl.
    apply extends_not_scheduled.
    eapply extends_trans; [|apply keeps_call_then; reflexivity].
    apply extends_same. reflexivity.
  - intros p res s Hp. unfold settle. rewrite Hp.
    set (w0 := set_promises _ w).
    change (added w) with (added w0).
    destruct s as [res2|err]; simpl.
    + apply clean_summary_schedules_once.
    + apply scheduled_then_schedule, extends_log_not_timer.
Qed.

(** C2: each cycle outcome schedules one future cycle
    ([every_outcome_schedules_once]), but two cycles can be in flight at the
    same time, and then two scheduled cycles are pending at once. Here two
    status events arrive while the client is connected; each starts a cycle
    ([updateAttributesTopicOnEvent]) and only the timer handle is cleared,
    not the cycle already waiting for the device. When both cycles have
    completed, timers 5 and 6 are both pending and the client only remembers
    timer 6. *)
Theorem overlapping_cycles_leave_two_timers :
  timers overlapping_cycles = [5; 6]%nat
  ∧ attributesUpdateTimeout overlapping_cycles = Some 6%nat
  ∧ promises overlapping_cycles = []
  ∧ scheduled (trace overlapping_cycles) = 3%nat.
Proof. vm_compute. repeat split; reflexivity. Qed.

(** A status event with a battery reading, on a connected client, does
    publish on the state topic. *)
Example status_with_battery_is_published :
  ∃ payload,
    Publish (topics_state sample_env) payload true 0
    ∈ added (set_client (Some online) (initial VUndef))
        (step sample_env (set_client (Some online) (initial VUndef))
           (MiioStatus status_cleaning)).
Proof. eexists. vm_compute. apply list_elem_of_here. Qed.

(** * Further properties of the client *)

(** ** Topics and routing *)

(** X1: whatever the prefixes and the identifier are, the seven topics of
    the client are pairwise different. *)
Theorem topics_pairwise_distinct (env : Env) : NoDup (all_topics env).
Proof.
  unfold all_topics.
  assert (Hsix : NoDup [ topics_command env; topics_set_fan_speed env;
                         topics_send_command env; topics_state env;
                         topics_map_data env; topics_attributes env ]).
  { change (NoDup ((fun suffix => topicPrefix env ++ "/" ++ identifier env ++ suffix)
                     <$> [ "/command"; "/set_fan_speed"; "/custom_command";
                           "/state"; "/map_data"; "/attributes" ])).
    apply NoDup_fmap_2.
    - intros a b H. do 3 apply append_inv_head in H. exact H.
    - apply (bool_decide_unpack (NoDup _)). vm_compute. exact I. }
  assert (Hauto : last_char (topics_homeassistant_autoconf_vacuum env) = Some "g"%char).
  { unfold topics_homeassistant_autoconf_vacuum. rewrite !last_char_append.
    reflexivity. }
  assert (Hnot : ∀ t, t ∈ [ topics_command env; topics_set_fan_speed env;
                            topics_send_command env; topics_state env;
                            topics_map_data env; topics_attributes env ] →
                      last_char t ≠ Some "g"%char).
  { apply Forall_forall.
    repeat (apply Forall_cons; split;
            [ unfold topics_command, topics_set_fan_speed, topics_send_command,
                topics_state, topics_map_data, topics_attributes;
              rewrite !last_char_append; simpl; discriminate |]).
    apply Forall_nil. done. }
  apply (NoDup_app [ topics_command env; topics_set_fan_speed env;
                     topics_send_command env; topics_state env;
                     topics_map_data env; topics_attributes env ]
           [topics_homeassistant_autoconf_vacuum env]).
  split; [exact Hsix|]. split.
  - intros t Ht Hin. apply list_elem_of_singleton in Hin. subst t.
    exact (Hnot _ Ht Hauto).
  - apply NoDup_singleton.
Qed.

Lemma command_topics_distinct (env : Env) :
  topics_command env ≠ topics_send_command env
  ∧ topics_command env ≠ topics_set_fan_speed env
  ∧ topics_set_fan_speed env ≠ topics_send_command env.
Proof.
  unfold topics_command, topics_send_command, topics_set_fan_speed.
  repeat split; intros H; do 3 apply append_inv_head in H; discriminate H.
Qed.

(** X2: a message is routed by its topic alone: on the command topic it is
    handled as a simple command, on the fan-speed topic as a fan-speed
    request, on the custom-command topic as a custom command, and a message
    on any other topic changes nothing. *)
Theorem on_message_routes_by_topic (env : Env) (topic msg : string) (w : World) :
  (topic = topics_command env → on_message env topic msg w = handleCommand msg w)
  ∧ (topic = topics_set_fan_speed env →
       on_message env topic msg w = handleFanSpeedRequest msg w)
  ∧ (topic = topics_send_command env →
       on_message env topic msg w = handleCustomCommand env msg w)
  ∧ (topic ≠ topics_command env → topic ≠ topics_set_fan_speed env →
     topic ≠ topics_send_command env → on_message env topic msg w = w).
Proof.
  destruct (command_topics_distinct env) as (Hcs & Hcf & Hfs).
  unfold on_message. repeat split.
  - intros ->.
    rewrite (proj2 (String.eqb_neq _ _) Hcs), (proj2 (String.eqb_neq _ _) Hcf).
    rewrite String.eqb_refl. reflexivity.
  - intros ->.
    rewrite (proj2 (String.eqb_neq _ _) Hfs), String.eqb_refl. reflexivity.
  - intros ->. rewrite String.eqb_refl. reflexivity.
  - intros H1 H2 H3.
    rewrite (proj2 (String.eqb_neq _ _) H3), (proj2 (String.eqb_neq _ _) H2),
      (proj2 (String.eqb_neq _ _) H1). reflexivity.
Qed.

Lemma on_message_routes_by_topic_witness :
  on_message sample_env "valetudo/rockrobo/command" "locate" (initial VUndef)
  = handleCommand "locate" (initial VUndef)
  ∧ on_message sample_env "valetudo/rockrobo/state" "locate" (initial VUndef)
    = initial VUndef.
Proof.
  destruct (on_message_routes_by_topic sample_env "valetudo/rockrobo/command" "locate"
              (initial VUndef)) as (Hc & _).
  destruct (on_message_routes_by_topic sample_env "valetudo/rockrobo/state" "locate"
              (initial VUndef)) as (_ & _ & _ & Hn).
  split; [apply Hc; reflexivity | apply Hn; discriminate].
Defined.

(** ** Fan speeds *)

Ltac elem_tac := repeat first [apply list_elem_of_here | apply list_elem_of_further].

Lemma find_fan_speed_cases (v : jsval) :
  (∃ name p, (name, p) ∈ FAN_SPEEDS ∧ v = VNum p ∧ find_fan_speed v = VStr name)
  ∨ ((∀ name p, (name, p) ∈ FAN_SPEEDS → v ≠ VNum p) ∧ find_fan_speed v = VUndef).
Proof.
  destruct v as [| | |n| | |];
    try (right; split; [intros name p _ H; discriminate H | reflexivity]).
  unfold find_fan_speed, FAN_SPEEDS. cbn [List.find snd fst strict_eq].
  destruct (Z.eqb_spec 38 n) as [<-|H1];
    [left; exists "min", 38; repeat split; first [reflexivity | elem_tac]|].
  destruct (Z.eqb_spec 60 n) as [<-|H2];
    [left; exists "medium", 60; repeat split; first [reflexivity | elem_tac]|].
  destruct (Z.eqb_spec 75 n) as [<-|H3];
    [left; exists "high", 75; repeat split; first [reflexivity | elem_tac]|].
  destruct (Z.eqb_spec 100 n) as [<-|H4];
    [left; exists "max", 100; repeat split; first [reflexivity | elem_tac]|].
  destruct (Z.eqb_spec 105 n) as [<-|H5];
    [left; exists "mop", 105; repeat split; first [reflexivity | elem_tac]|].
  right. split; [|reflexivity].
  intros name p Hin Heq. inversion Heq; subst p.
  apply list_elem_of_In in Hin. simpl in Hin.
  destruct Hin as [H|[H|[H|[H|[H|[]]]]]]; inversion H; congruence.
Qed.

(** X3: the two directions of the fan-speed table agree. The name published
    for a fan power by the state publisher is requested back as that same
    power by the fan-speed handler, and every name of the table is published
    for its own power. *)
Theorem fan_speed_round_trip :
  (∀ (v : jsval) (name : string) (w : World),
     find_fan_speed v = VStr name →
     added w (handleFanSpeedRequest name w) = [Call (setFanSpeed v)])
  ∧ (∀ (name : string) (p : Z),
       assoc name FAN_SPEEDS = Some p → find_fan_speed (VNum p) = VStr name).
Proof.
  split.
  - intros v name w Hfind. unfold handleFanSpeedRequest.
    destruct (find_fan_speed_cases v) as [(name' & p & Hin & -> & Hf)|[_ Hf]];
      [|rewrite Hf in Hfind; discriminate Hfind].
    rewrite Hf in Hfind. inversion Hfind; subst name'.
    assert (Hassoc : assoc name FAN_SPEEDS = Some p).
    { apply list_elem_of_In in Hin. simpl in Hin.
      destruct Hin as [H|[H|[H|[H|[H|[]]]]]]; inversion H; reflexivity. }
    rewrite Hassoc. apply added_emit.
  - intros name p Hassoc. unfold FAN_SPEEDS in Hassoc. simpl in Hassoc.
    repeat (match type of Hassoc with
            | (if String.eqb name ?k then _ else _) = _ =>
                destruct (String.eqb_spec name k) as [->|_];
                [inversion Hassoc; subst; reflexivity|]
            end).
    discriminate Hassoc.
Qed.

Lemma fan_speed_round_trip_witness :
  added (initial VUndef) (handleFanSpeedRequest "high" (initial VUndef))
  = [Call (setFanSpeed (VNum 75))]
  ∧ find_fan_speed (VNum 105) = VStr "mop".
Proof.
  destruct fan_speed_round_trip as (Hback & Hname).
  split; [apply Hback; reflexivity | apply Hname; reflexivity].
Defined.


(** ** Custom commands *)

Lemma find_all_false {A} (f : A → bool) (l : list A) :
  (∀ x, x ∈ l → f x = false) → List.find f l = None.
Proof.
  induction l as [|a l IH]; intros H; [reflexivity|]. simpl.
  rewrite (H a) by apply list_elem_of_here.
  apply IH. intros x Hx. apply H. apply list_elem_of_further, Hx.
Qed.

Lemma find_first_match {A} (f : A → bool) (pre post : list A) (a : A) :
  (∀ x, x ∈ pre → f x = false) → f a = true →
  List.find f (pre ++ a :: post) = Some a.
Proof.
  induction pre as [|b pre IH]; intros Hpre Ha; simpl.
  - rewrite Ha. reflexivity.
  - rewrite (Hpre b) by apply list_elem_of_here.
    apply IH; [|exact Ha]. intros x Hx. apply Hpre, list_elem_of_further, Hx.
Qed.

Lemma command_truthy (msg command : jsval) :
  get_prop msg "command" = Some command → truthy command = true → truthy msg = true.
Proof.
  destruct msg; simpl; intros H Ht; try discriminate H; try reflexivity;
    inversion H; subst; discriminate Ht.
Qed.

(** X5: a go_to command is resolved against the configured spots in their
    order. The first spot that is an array whose first element is strictly
    equal to the reference gives the coordinates of the one go-to call; when
    no spot matches, the device is not called and "Invalid spot_id" is
    logged. *)
Theorem go_to_resolves_first_matching_spot
    (env : Env) (message : string) (msg spot_id : jsval) (w : World) :
  JSON_parse env message = Some msg →
  get_prop msg "command" = Some (VStr "go_to") →
  get_prop msg "spot_id" = Some spot_id →
  truthy spot_id = true →
  ((∀ e, e ∈ spots env → is_spot spot_id e = false) →
     handleCustomCommand env message w = emit (LogInfo "Invalid spot_id") w)
  ∧ (∀ pre es post,
       spots env = (pre ++ VArr es :: post)%list →
       (∀ e, e ∈ pre → is_spot spot_id e = false) →
       strict_eq (default VUndef (es !! 0%nat)) spot_id = true →
       handleCustomCommand env message w
       = call_ (goTo (default VUndef (es !! 1%nat)) (default VUndef (es !! 2%nat))) w).
Proof.
  intros Hparse Hcmd Hspot Ht.
  assert (Hm : truthy msg = true) by (eapply command_truthy; [exact Hcmd | reflexivity]).
  unfold handleCustomCommand. rewrite Hparse, Hcmd, Hspot, Hm. simpl. rewrite Ht.
  split.
  - intros Hnone. rewrite (find_all_false _ _ Hnone). reflexivity.
  - intros pre es post Hspots Hpre Hes. rewrite Hspots.
    rewrite (find_first_match (is_spot spot_id) pre post (VArr es) Hpre Hes).
    reflexivity.
Qed.

Lemma go_to_resolves_first_matching_spot_witness :
  handleCustomCommand (env_with_parse go_to_parse []) (stringify_str go_to_balcony)
    (initial VUndef)
  = emit (LogInfo "Invalid spot_id") (initial VUndef)
  ∧ handleCustomCommand spots_env (stringify_str go_to_balcony) (initial VUndef)
    = call_ (goTo (VNum 21000) (VNum 30500)) (initial VUndef).
Proof.
  split.
  - pose proof (go_to_resolves_first_matching_spot (env_with_parse go_to_parse [])
                  (stringify_str go_to_balcony) go_to_balcony (VStr "Balcony")
                  (initial VUndef) eq_refl eq_refl eq_refl eq_refl) as (Hnone & _).
    apply Hnone. intros e He. inversion He.
  - pose proof (go_to_resolves_first_matching_spot spots_env
                  (stringify_str go_to_balcony) go_to_balcony (VStr "Balcony")
                  (initial VUndef) eq_refl eq_refl eq_refl eq_refl) as (_ & Hfirst).
    apply (Hfirst [VStr "Balcony"; VArr [VStr "Sofa"; VNum 25000; VNum 26000]]
             [VStr "Balcony"; VNum 21000; VNum 30500]
             [VArr [VStr "Balcony"; VNum 1; VNum 2]]).
    + reflexivity.
    + intros e He. apply list_elem_of_In in He. simpl in He.
      destruct He as [<-|[<-|[]]]; reflexivity.
    + reflexivity.
Defined.

(** X6: custom commands that cannot be carried out never reach the device.
    A payload that does not parse is logged as an error; a parsed document
    that is falsy or has no truthy [command] is dropped without any log; an
    unknown command, a zoned_cleanup without a non-empty [zone_ids] array and
    a go_to without a truthy [spot_id] are each answered by one
    informational log line. In all these cases nothing but the trace
    changes. *)
Theorem custom_command_dropped (env : Env) (message : string) (w : World) :
  (JSON_parse env message = None →
     handleCustomCommand env message w = emit LogError w)
  ∧ (∀ msg,
       JSON_parse env message = Some msg →
       truthy msg = false ∨ truthy (default VUndef (get_prop msg "command")) = false →
       handleCustomCommand env message w = w)
  ∧ (∀ msg command,
       JSON_parse env message = Some msg →
       get_prop msg "command" = Some command →
       truthy command = true →
       command ≠ VStr "zoned_cleanup" → command ≠ VStr "go_to" →
       handleCustomCommand env message w
       = emit (LogInfo "Received invalid custom command") w)
  ∧ (∀ msg,
       JSON_parse env message = Some msg →
       get_prop msg "command" = Some (VStr "zoned_cleanup") →
       (∀ z zs, get_prop msg "zone_ids" ≠ Some (VArr (z :: zs))) →
       handleCustomCommand env message w
       = emit (LogInfo "Missing zone_ids or empty array") w)
  ∧ (∀ msg,
       JSON_parse env message = Some msg →
       get_prop msg "command" = Some (VStr "go_to") →
       truthy (default VUndef (get_prop msg "spot_id")) = false →
       handleCustomCommand env message w = emit (LogInfo "Missing spot_id") w).
Proof.
  unfold handleCustomCommand. repeat split.
  - intros ->. reflexivity.
  - intros msg -> [H|H]; rewrite H; [reflexivity|].
    rewrite andb_false_r. reflexivity.
  - intros msg command -> Hc Ht Hz Hg.
    rewrite (command_truthy _ _ Hc Ht), Hc. simpl. rewrite Ht.
    destruct (strict_eq command (VStr "zoned_cleanup")) eqn:E1;
      [apply strict_eq_str in E1; contradiction|].
    destruct (strict_eq command (VStr "go_to")) eqn:E2;
      [apply strict_eq_str in E2; contradiction|].
    reflexivity.
  - intros msg -> Hc Hz.
    rewrite (command_truthy _ _ Hc eq_refl), Hc. simpl.
    destruct (get_prop msg "zone_ids") as [[| | | | |[|z zs]|]|] eqn:E; simpl;
      try reflexivity.
    exfalso. apply (Hz z zs). reflexivity.
  - intros msg -> Hc Hs.
    rewrite (command_truthy _ _ Hc eq_refl), Hc. simpl. rewrite Hs. reflexivity.
Qed.

Lemma custom_command_dropped_witness :
  handleCustomCommand sample_env "{" (initial VUndef) = emit LogError (initial VUndef).
Proof.
  apply (custom_command_dropped sample_env "{" (initial VUndef)). reflexivity.
Defined.

(** ** The zones of a zoned cleanup *)

Lemma filter_map_sublist {A B} (f : A → B) (g : A → bool) (l : list A) :
  map f (List.filter g l) `sublist_of` map f l.
Proof.
  induction l as [|a l IH]; simpl; [constructor|].
  destruct (g a); simpl; [apply sublist_skip | apply sublist_cons]; exact IH.
Qed.

Lemma includes_same_entries (zones zones' : list jsval) (v : jsval) :
  (∀ x, x ∈ zones ↔ x ∈ zones') → includes zones v = includes zones' v.
Proof.
  intros H. apply eq_true_iff_eq. rewrite !includes_spec.
  split; intros (x & Hin & Hx); exists x; split; auto; apply H; exact Hin.
Qed.

(** X7: the identifiers of a zoned-cleanup request are taken from the zone
    table: they form a sub-list of the identifiers of the table, in table
    order, so a zone named twice (or by name and by identifier) is requested
    once; and the request depends only on which entries occur in [zone_ids],
    not on their order or multiplicity. *)
Theorem zoned_cleanup_ids_follow_zone_table (env : Env) (zones zones' : list jsval) :
  matched_zone_ids env zones `sublist_of` map zone_id (getZones env)
  ∧ ((∀ x, x ∈ zones ↔ x ∈ zones') →
     matched_zone_ids env zones = matched_zone_ids env zones').
Proof.
  split; [apply filter_map_sublist|].
  intros H. unfold matched_zone_ids. f_equal.
  apply List.filter_ext. intros zone.
  rewrite !(includes_same_entries zones zones' _ H). reflexivity.
Qed.

Lemma zoned_cleanup_ids_follow_zone_table_witness :
  matched_zone_ids sample_env [VNum 7; VStr "Kitchen"; VNum 3; VNum 7]
  = matched_zone_ids sample_env [VNum 3; VStr "Kitchen"; VNum 7].
Proof.
  apply (zoned_cleanup_ids_follow_zone_table sample_env).
  intros x. rewrite !list_elem_of_In. simpl. tauto.
Defined.

(** X8: a zoned cleanup whose entries select no configured zone is still
    submitted: the device is asked to clean the empty list of zones, and
    nothing is logged. *)
Theorem zoned_cleanup_without_match_requests_nothing
    (env : Env) (message : string) (msg : jsval) (zones : list jsval) (w : World) :
  JSON_parse env message = Some msg →
  get_prop msg "command" = Some (VStr "zoned_cleanup") →
  get_prop msg "zone_ids" = Some (VArr zones) →
  zones ≠ [] →
  (∀ zone, zone ∈ getZones env → ¬ zone_selected zones zone) →
  added w (handleCustomCommand env message w) = [Call (startCleaningZonesById [])].
Proof.
  intros Hparse Hcmd Hzones Hne Hnone.
  assert (Hempty : matched_zone_ids env zones = []).
  { destruct (matched_zone_ids env zones) as [|id ids] eqn:E; [reflexivity|].
    exfalso.
    assert (Hin : id ∈ matched_zone_ids env zones) by (rewrite E; apply list_elem_of_here).
    apply matched_zone_ids_spec in Hin as (zone & Hz & _ & Hsel).
    exact (Hnone zone Hz Hsel). }
  unfold handleCustomCommand.
  rewrite Hparse, Hcmd, Hzones, (command_truthy _ _ Hcmd eq_refl). simpl.
  destruct zones as [|z zs]; [contradiction|].
  rewrite Hempty. apply added_call_then.
Qed.

Lemma zoned_cleanup_without_match_requests_nothing_witness :
  added (initial VUndef)
    (handleCustomCommand (env_with_parse attic_parse []) (stringify_str zoned_cleanup_attic)
       (initial VUndef))
  = [Call (startCleaningZonesById [])].
Proof.
  apply (zoned_cleanup_without_match_requests_nothing (env_with_parse attic_parse [])
           (stringify_str zoned_cleanup_attic) zoned_cleanup_attic [VStr "Attic"]
           (initial VUndef)).
  - reflexivity.
  - reflexivity.
  - reflexivity.
  - discriminate.
  - intros zone Hz (entry & He & Hsel).
    apply list_elem_of_In in Hz. apply list_elem_of_In in He. simpl in Hz, He.
    destruct He as [<-|[]]. destruct Hz as [<-|[<-|[]]]; destruct Hsel; discriminate.
Defined.

(** ** The state publisher *)

Lemma get_prop_defined (v : jsval) (k k' : string) (a : jsval) :
  get_prop v k = Some a → ∃ b, get_prop v k' = Some b.
Proof. destruct v; simpl; intros H; try discriminate H; eauto. Qed.

(** X9: the state topic is not deduplicated: every status event that finds
    the client connected and carries a battery reading publishes exactly one
    retained message on the state topic, before the aggregation cycle it
    starts adds its own effects. *)
Theorem status_event_always_publishes_state
    (env : Env) (statusData b : jsval) (w : World) :
  is_connected w = true →
  get_prop statusData "battery" = Some b →
  b ≠ VUndef →
  ∃ payload rest,
    added w (step env w (MiioStatus statusData))
    = Publish (topics_state env) payload true (qos env) :: rest
    ∧ Forall (aggregator_effect env) rest.
Proof.
  intros Hc Hb Hne.
  destruct (get_prop_defined _ _ "state" _ Hb) as [st Hst].
  destruct (get_prop_defined _ _ "fan_power" _ Hb) as [fp Hfp].
  destruct (get_prop_defined _ _ "error_code" _ Hb) as [ec Hec].
  assert (Hu : strict_eq b VUndef = false).
  { destruct (strict_eq b VUndef) eqn:E; [|reflexivity].
    apply strict_eq_undef in E. contradiction. }
  simpl. unfold run, on_miio_status, updateStatusTopic, updateAttributesTopicOnEvent,
    bind, read, lift, act.
  rewrite Hc, Hb, Hu, Hst, Hfp, Hec. simpl.
  match goal with
  | |- context [emit (Publish _ ?p _ _) w] => set (payload := p)
  end.
  set (w1 := set_last_states _ _ _).
  destruct (keeps_updateAttributesTopic env w1) as (rest & Hrest & Hagg).
  exists payload, rest. split; [|exact Hagg].
  apply added_app. rewrite Hrest. subst w1. simpl.
  rewrite <- app_assoc. reflexivity.
Qed.

Lemma status_event_always_publishes_state_witness :
  ∃ payload rest,
    added (set_client (Some online) (initial VUndef))
      (step sample_env (set_client (Some online) (initial VUndef))
         (MiioStatus status_cleaning))
    = Publish (topics_state sample_env) payload true 0 :: rest
    ∧ Forall (aggregator_effect sample_env) rest.
Proof.
  apply (status_event_always_publishes_state sample_env status_cleaning (VNum 80)).
  - reflexivity.
  - reflexivity.
  - discriminate.
Defined.







(** ** The map publisher *)

(** A map notification adds at most one effect, a retained publish of the
    parsed map on the map topic, which is none of the state, attributes and
    discovery topics. *)
Lemma on_valetudo_map_cases (env : Env) (map : jsval) (w : World) :
  let parsedData := default VUndef (get_prop map "parsedData") in
  let ready := provideMapData env && is_connected w && truthy map && truthy parsedData in
  on_valetudo_map env map w
  = (if ready
     then emit (Publish (topics_map_data env) (stringify_str parsedData) true (qos env)) w
     else w)
  ∧ topics_map_data env ≠ topics_state env
  ∧ topics_map_data env ≠ topics_attributes env
  ∧ topics_map_data env ≠ topics_homeassistant_autoconf_vacuum env.
Proof.
  intros parsedData ready. split; [|split; [|split]].
  - unfold on_valetudo_map, updateMapDataTopic. subst ready. fold parsedData.
    destruct (provideMapData env); simpl; [|reflexivity].
    destruct (is_connected w); simpl; [|reflexivity].
    destruct (truthy map); simpl; [|reflexivity].
    destruct (truthy parsedData); reflexivity.
  - unfold topics_map_data, topics_state. intros H.
    do 3 apply append_inv_head in H. discriminate H.
  - unfold topics_map_data, topics_attributes. intros H.
    do 3 apply append_inv_head in H. discriminate H.
  - unfold topics_map_data, topics_homeassistant_autoconf_vacuum. intros H.
    apply (f_equal last_char) in H. rewrite !last_char_append in H.
    simpl in H. discriminate H.
Qed.

(** * Further properties of the codec *)

Section CodecProperties.
Variable md5 : list byte → list byte.
Variable aes_128_cbc_decrypt : list byte → list byte → list byte → option (list byte).
Variable aes_128_cbc_encrypt : list byte → list byte → list byte → list byte.
Variable toString : list byte → string.
Variable JSON_parse : string → option jsval.
Variable Timestamp : Type.
Variable createMiioHeader : Timestamp → Z → nat → Z → list byte.

Lemma header_of_length (response : list byte) :
  List.length (Codec.header_of response) = 32%nat.
Proof.
  unfold Codec.header_of. rewrite length_app, length_replicate, length_take. lia.
Qed.

Lemma readUInt32BE_bounds (buf : list byte) (offset : nat) :
  (0 ≤ Codec.readUInt32BE buf offset < 2 ^ 32)%Z.
Proof.
  unfold Codec.readUInt32BE.
  assert (Hlen : (List.length (take 4 (drop offset buf)) ≤ 4)%nat)
    by (rewrite length_take; lia).
  assert (Hb : ∀ x : byte, (0 ≤ Z.of_N (Byte.to_N x) ≤ 255)%Z).
  { intros x. pose proof (Byte.to_N_bounded x). lia. }
  destruct (take 4 (drop offset buf)) as [|a [|b [|c [|d [|e l]]]]]; simpl in *;
    try lia.
  - pose proof (Hb a). lia.
  - pose proof (Hb a). pose proof (Hb b). lia.
  - pose proof (Hb a). pose proof (Hb b). pose proof (Hb c). lia.
  - pose proof (Hb a). pose proof (Hb b). pose proof (Hb c). pose proof (Hb d). lia.
Qed.

(** X11: for every packet, also a truncated or empty one, the time stamp and
    the device id that [handleResponse] returns are unsigned 32-bit
    numbers. *)
Theorem handleResponse_fields_are_uint32 (c : Codec.Codec) (response : list byte) :
  match Codec.handleResponse md5 aes_128_cbc_decrypt toString JSON_parse c response with
  | Codec.Returned r _ =>
      (0 ≤ Codec.stamp r < 2 ^ 32)%Z ∧ (0 ≤ Codec.deviceId r < 2 ^ 32)%Z
  | Codec.Thrown => True
  end.
Proof.
  unfold Codec.handleResponse.
  destruct (negb _); destruct (Nat.ltb _ _);
    try (destruct (aes_128_cbc_decrypt _ _ _) as [plain|];
         [destruct (JSON_parse _)|]);
    try exact I; simpl; split; apply readUInt32BE_bounds.
Qed.

(** X12: a packet of at most 32 bytes is always answered: the call returns,
    [msg] is null, and the packet is either accepted as an empty message or
    taken for a token handshake. A token that is returned is always 16 bytes
    long, the bytes 16 to 31 of the zero-padded header. *)
Theorem handleResponse_short_packet (c : Codec.Codec) (response : list byte) :
  (List.length response ≤ 32)%nat →
  ∃ r, Codec.handleResponse md5 aes_128_cbc_decrypt toString JSON_parse c response
       = Codec.Returned r false
       ∧ Codec.msg r = VNull
       ∧ (Codec.token r = None ∨ Codec.token r = Some (Codec.checksum_of response))
       ∧ List.length (Codec.checksum_of response) = 16%nat.
Proof.
  intros Hlen.
  assert (Henc : Codec.encrypted_of response = []).
  { unfold Codec.encrypted_of. apply drop_ge. exact Hlen. }
  assert (H16 : List.length (Codec.checksum_of response) = 16%nat).
  { unfold Codec.checksum_of. rewrite length_drop, header_of_length. reflexivity. }
  unfold Codec.handleResponse. rewrite Henc. simpl.
  destruct (Codec.bytes_eqb _ _); simpl; eexists; repeat split; simpl; auto.
Qed.

Lemma copy_digest_into_header (digest header : list byte) :
  List.length digest = 16%nat → List.length header = 32%nat →
  CodecEncode.copy_into digest header 16 = (take 16 header ++ digest)%list.
Proof.
  intros Hd Hh. unfold CodecEncode.copy_into. rewrite Hh, Hd. simpl.
  rewrite (take_ge digest 16) by lia. rewrite (drop_ge header 32) by lia.
  rewrite app_nil_r. reflexivity.
Qed.

Lemma readUInt32BE_prefix (prefix rest : list byte) (offset : nat) :
  (offset + 4 ≤ List.length prefix)%nat →
  Codec.readUInt32BE (prefix ++ rest) offset = Codec.readUInt32BE prefix offset.
Proof.
  intros H. unfold Codec.readUInt32BE. f_equal.
  rewrite drop_app_le by lia. rewrite take_app_le; [reflexivity|].
  rewrite length_drop. lia.
Qed.

(** X13: a packet built by [encode] is accepted by [handleResponse] of a
    codec with the same token: the checksum test passes, nothing is logged,
    the packet is not mistaken for a token handshake, the time stamp and the
    device id are read back from the header that [createMiioHeader] built,
    and the message is the decrypted payload, parsed after the control
    characters are removed (the call throws when that text is not JSON).
    This holds when the digest has 16 bytes, the header 32, decryption
    inverts encryption, and a cipher text is never empty. *)
Theorem encode_is_accepted_by_handleResponse
    (c : Codec.Codec) (msg : list byte) (timestamp : Timestamp) (deviceId : Z) :
  (∀ x, List.length (md5 x) = 16%nat) →
  (∀ ts dev n u, List.length (createMiioHeader ts dev n u) = 32%nat) →
  (∀ key iv m, aes_128_cbc_decrypt key iv (aes_128_cbc_encrypt key iv m) = Some m) →
  (∀ key iv m, aes_128_cbc_encrypt key iv m ≠ []) →
  let encrypted := aes_128_cbc_encrypt (Codec.tokenKey c) (Codec.tokenIV c) msg in
  let header := createMiioHeader timestamp deviceId (List.length encrypted) 0 in
  Codec.handleResponse md5 aes_128_cbc_decrypt toString JSON_parse c
    (CodecEncode.encode md5 aes_128_cbc_encrypt Timestamp createMiioHeader c msg
       timestamp deviceId)
  = match JSON_parse (Codec.strip_control (toString msg)) with
    | Some m =>
        Codec.Returned
          {| Codec.stamp := Codec.readUInt32BE header 12;
             Codec.deviceId := Codec.readUInt32BE header 8;
             Codec.msg := m;
             Codec.token := None |} false
    | None => Codec.Thrown
    end.
Proof.
  intros Hmd5 Hheader Hdec Hnonempty encrypted header.
  unfold CodecEncode.encode. fold encrypted. fold header.
  set (digest := md5 (take 16 header ++ Codec.this_token c ++ encrypted)%list).
  assert (Hlen : List.length header = 32%nat) by apply Hheader.
  assert (Hdig : List.length digest = 16%nat) by apply Hmd5.
  rewrite (copy_digest_into_header digest header Hdig Hlen).
  set (packet_header := (take 16 header ++ digest)%list).
  assert (H16 : List.length (take 16 header) = 16%nat).
  { rewrite length_take, Hlen. reflexivity. }
  assert (H32 : List.length packet_header = 32%nat).
  { subst packet_header. rewrite length_app, H16, Hdig. reflexivity. }
  assert (Hh : Codec.header_of (packet_header ++ encrypted) = packet_header).
  { unfold Codec.header_of. rewrite (take_app_length' _ _ _ (eq_sym H32)), H32. simpl.
    apply app_nil_r. }
  assert (He : Codec.encrypted_of (packet_header ++ encrypted) = encrypted).
  { unfold Codec.encrypted_of. apply drop_app_length'. symmetry. exact H32. }
  assert (Hc : Codec.checksum_of (packet_header ++ encrypted) = digest).
  { unfold Codec.checksum_of. rewrite Hh. subst packet_header.
    apply drop_app_length'. symmetry. exact H16. }
  assert (Hd : Codec.digest_of md5 c (packet_header ++ encrypted) = digest).
  { unfold Codec.digest_of. rewrite Hh, He. subst packet_header.
    rewrite (take_app_length' _ _ _ (eq_sym H16)). reflexivity. }
  unfold Codec.handleResponse. rewrite Hc, Hd, Hh, He.
  rewrite (proj2 (bytes_eqb_eq digest digest) eq_refl). simpl.
  rewrite (proj2 (length_positive_nonempty encrypted) (Hnonempty _ _ _)).
  subst encrypted. rewrite Hdec.
  destruct (JSON_parse _); [|reflexivity].
  subst packet_header.
  rewrite !readUInt32BE_prefix by (rewrite H16; lia).
  do 2 f_equal.
  - unfold Codec.readUInt32BE. rewrite !take_drop_commute, take_take. reflexivity.
  - unfold Codec.readUInt32BE. rewrite !take_drop_commute, take_take. reflexivity.
Qed.

End CodecProperties.

Lemma handleResponse_short_packet_witness :
  ∃ r, Codec.handleResponse (fun _ => replicate 16 x01) (fun _ _ d => Some d)
         (fun _ => "") (fun _ => Some VNull)
         (Codec.setToken (fun _ => replicate 16 x01) []) [x21; x31]
       = Codec.Returned r false
       ∧ Codec.msg r = VNull
       ∧ (Codec.token r = None ∨ Codec.token r = Some (Codec.checksum_of [x21; x31]))
       ∧ List.length (Codec.checksum_of [x21; x31]) = 16%nat.
Proof. apply handleResponse_short_packet. simpl. lia. Defined.

Lemma encode_is_accepted_by_handleResponse_witness :
  Codec.handleResponse (fun _ => replicate 16 x01) (fun _ _ d => Some (tail d))
    (fun _ => "") (fun _ => Some (VNum 1))
    (Codec.setToken (fun _ => replicate 16 x01) [x2a])
    (CodecEncode.encode (fun _ => replicate 16 x01) (fun _ _ m => x00 :: m) unit
       (fun _ _ _ _ => replicate 32 x07)
       (Codec.setToken (fun _ => replicate 16 x01) [x2a]) [x7b; x7d] tt 5)
  = Codec.Returned
      {| Codec.stamp := 117901063; Codec.deviceId := 117901063;
         Codec.msg := VNum 1; Codec.token := None |} false.
Proof.
  apply (encode_is_accepted_by_handleResponse (fun _ => replicate 16 x01)
           (fun _ _ d => Some (tail d)) (fun _ _ m => x00 :: m) (fun _ => "")
           (fun _ => Some (VNum 1)) unit (fun _ _ _ _ => replicate 32 x07)).
  - intros x. reflexivity.
  - intros ts dev n u. reflexivity.
  - intros key iv m. reflexivity.
  - intros key iv m. discriminate.
Defined.

(** * Invariants of the event loop *)

(** The snapshot assembled by a cycle is an object. *)
Lemma assemble_response_object env res res2 w w' a :
  assemble_response env res res2 w = (w', Some a) → ∃ fs, a = VObj fs.
Proof.
  unfold assemble_response, attributes_snapshot, bind, lift, read, act, ret.
  intros H. repeat case_match; simplify_eq; eexists; reflexivity.
Qed.

(** ** Properties kept by every elementary action *)

Section PlainInvariant.
Variable env : Env.
Variable P : World → Prop.
Hypothesis P_emit : ∀ e w, ¬ is_attributes_publish env e → P w → P (emit e w).
Hypothesis P_client : ∀ c w, P w → P (set_client c w).
Hypothesis P_states : ∀ st w, P w → P (set_last_states (ha_state_of st) st w).
Hypothesis P_run_stats : ∀ r w, P w → P (set_last_run_stats r w).
Hypothesis P_zone : ∀ z w, P w → P (set_zoneCleaningStatus z w).
Hypothesis P_call : ∀ op r w, cycle_reaction r = false → P w → P (call_then op r w).
Hypothesis P_cycle : ∀ op r w, cycle_reaction r = true → P w → P (call_then op r w).
Hypothesis P_drop : ∀ p w, P w → P (drop_promise p w).
Hypothesis P_clear : ∀ t w, P w → P (clearTimeout t w).
Hypothesis P_schedule : ∀ w, P w → P (schedule env w).
Hypothesis P_fired : ∀ t w, P w → P (drop_timer t w).
Hypothesis P_publish : ∀ fs w, P w → P (publish_if_changed env (VObj fs) w).

Abbreviation inv := (preserved P).
Abbreviation minv := (mpreserved P).

Lemma minv_ret {A} (a : A) : minv (ret a).
Proof. intros w H. exact H. Qed.

Lemma minv_lift {A} (o : option A) : minv (lift o).
Proof. intros w H. exact H. Qed.

Lemma minv_read {A} (f : World → A) : minv (read f).
Proof. intros w H. exact H. Qed.

Lemma minv_act f : inv f → minv (act f).
Proof. intros Hf w H. apply Hf, H. Qed.

Lemma minv_bind {A B} (m : M A) (k : A → M B) :
  minv m → (∀ a, minv (k a)) → minv (bind m k).
Proof.
  intros Hm Hk w H. unfold bind. specialize (Hm w H).
  destruct (m w) as [w' [a|]]; simpl in *; [apply Hk, Hm | exact Hm].
Qed.

Lemma minv_bind_value {A B} (V : A → Prop) (m : M A) (k : A → M B) :
  minv m → (∀ w w' a, m w = (w', Some a) → V a) → (∀ a, V a → minv (k a)) →
  minv (bind m k).
Proof.
  intros Hm HV Hk w H. unfold bind. specialize (Hm w H). specialize (HV w).
  destruct (m w) as [w' [a|]]; simpl in *; [|exact Hm].
  apply Hk; [eapply HV; reflexivity | exact Hm].
Qed.

Lemma inv_catch (m : M unit) h : minv m → inv h → inv (catch m h).
Proof.
  intros Hm Hh w H. unfold catch. specialize (Hm w H).
  destruct (m w) as [w' [a|]]; simpl in *; [exact Hm | apply Hh, Hm].
Qed.

Lemma inv_run (m : M unit) : minv m → inv (run m).
Proof. intros Hm w H. apply Hm, H. Qed.

Lemma not_attr_call op : ¬ is_attributes_publish env (Call op).
Proof. intros (payload & r & q & H). discriminate H. Qed.

Lemma not_attr_error : ¬ is_attributes_publish env LogError.
Proof. intros (payload & r & q & H). discriminate H. Qed.

Lemma not_attr_info m : ¬ is_attributes_publish env (LogInfo m).
Proof. intros (payload & r & q & H). discriminate H. Qed.

Lemma not_attr_state payload r q :
  ¬ is_attributes_publish env (Publish (topics_state env) payload r q).
Proof.
  intros (payload' & r' & q' & H). inversion H.
  eapply topics_attributes_not_state. symmetry. eassumption.
Qed.

Lemma not_attr_autoconf payload r q :
  ¬ is_attributes_publish env (Publish (topics_homeassistant_autoconf_vacuum env) payload r q).
Proof.
  intros (payload' & r' & q' & H). inversion H as [Ht].
  unfold topics_homeassistant_autoconf_vacuum, topics_attributes in Ht.
  apply (f_equal last_char) in Ht. rewrite !last_char_append in Ht.
  simpl in Ht. discriminate Ht.
Qed.

Lemma not_attr_map payload r q :
  ¬ is_attributes_publish env (Publish (topics_map_data env) payload r q).
Proof.
  intros (payload' & r' & q' & H). inversion H as [Ht].
  unfold topics_map_data, topics_attributes in Ht.
  do 3 apply append_inv_head in Ht. discriminate Ht.
Qed.

Ltac inv_tac :=
  repeat match goal with
    | |- minv (ret _) => apply minv_ret
    | |- minv (lift _) => apply minv_lift
    | |- minv (read _) => apply minv_read
    | |- minv (bind _ _) => apply minv_bind; [|intros ?]
    | |- minv (act _) => apply minv_act
    | |- minv (if ?b then _ else _) => destruct b
    | |- inv (catch _ _) => apply inv_catch
    | |- inv (run _) => apply inv_run
    | |- inv (emit (Call _)) => intros ? ?; apply P_emit; [apply not_attr_call | assumption]
    | |- inv (emit LogError) => intros ? ?; apply P_emit; [apply not_attr_error | assumption]
    | |- inv (emit (LogInfo _)) => intros ? ?; apply P_emit; [apply not_attr_info | assumption]
    | |- inv (call_ _) => intros ? ?; apply P_emit; [apply not_attr_call | assumption]
    | |- inv (call_then _ _) => intros ? ?; apply P_call; [reflexivity | assumption]
    | |- inv (schedule _) => intros ? ?; apply P_schedule; assumption
    | |- inv (publish_if_changed _ (VObj _)) => intros ? ?; apply P_publish; assumption
    | |- inv (set_last_run_stats _) => intros ? ?; apply P_run_stats; assumption
    | |- inv (set_last_states (ha_state_of _) _) => intros ? ?; apply P_states; assumption
    end.

(** *** Handlers that neither wait for nor schedule a cycle *)

Lemma inv_connect fresh : inv (connect env fresh).
Proof.
  intros w H. unfold connect. destruct (should_connect w); [|exact H].
  apply P_emit; [|apply P_client, H].
  intros (payload & r & q & He). discriminate He.
Qed.

Lemma inv_on_connect : inv (on_connect env).
Proof.
  intros w H. unfold on_connect. apply P_emit.
  - intros (payload & r & q & He). discriminate He.
  - apply P_emit; [apply not_attr_info | exact H].
Qed.

Lemma inv_on_subscribed err : inv (on_subscribed env err).
Proof.
  intros w H. unfold on_subscribed. destruct (negb (truthy err)).
  - apply P_emit; [apply not_attr_autoconf | exact H].
  - apply P_emit; [apply not_attr_error | exact H].
Qed.

Lemma inv_handleCommand command : inv (handleCommand command).
Proof.
  intros w H. unfold handleCommand.
  repeat case_match;
    first [ exact H
          | apply P_call; [reflexivity | exact H]
          | apply P_emit; [apply not_attr_call | exact H] ].
Qed.

Lemma inv_handleCustomCommand message : inv (handleCustomCommand env message).
Proof.
  intros w H. unfold handleCustomCommand.
  repeat case_match;
    first [ exact H
          | apply P_call; [reflexivity | exact H]
          | apply P_emit; [first [apply not_attr_call | apply not_attr_error | apply not_attr_info]
                          | exact H] ].
Qed.

Lemma inv_on_message topic msg : inv (on_message env topic msg).
Proof.
  intros w H. unfold on_message. repeat case_match.
  - apply inv_handleCustomCommand, H.
  - apply P_emit; [apply not_attr_call | exact H].
  - apply inv_handleCommand, H.
  - exact H.
Qed.

Lemma minv_updateStatusTopic statusData : minv (updateStatusTopic env statusData).
Proof.
  unfold updateStatusTopic. cbv zeta. inv_tac.
  intros w H. apply P_emit; [apply not_attr_state | exact H].
Qed.

Lemma minv_assemble_response res res2 : minv (assemble_response env res res2).
Proof. unfold assemble_response. inv_tac. Qed.

Lemma minv_on_clean_record data : minv (on_clean_record env data).
Proof. unfold on_clean_record. inv_tac. Qed.

Lemma minv_on_current_status res : minv (on_current_status res).
Proof. unfold on_current_status. inv_tac. Qed.

Lemma inv_on_valetudo_map map : inv (on_valetudo_map env map).
Proof.
  intros w H. unfold on_valetudo_map, updateMapDataTopic.
  destruct (provideMapData env); [|exact H].
  destruct (_ && _); [|exact H].
  apply P_emit; [apply not_attr_map | exact H].
Qed.

Lemma minv_on_error e : minv (on_error e).
Proof. unfold on_error. inv_tac. Qed.

(** The reactions that do not belong to the aggregation cycle. *)
Lemma inv_react_other r s : cycle_reaction r = false → inv (react env r s).
Proof.
  intros Hr. destruct r; try discriminate Hr; destruct s; simpl.
  - apply inv_catch; [apply minv_on_clean_record|]. inv_tac.
  - inv_tac.
  - apply inv_run, minv_on_current_status.
  - inv_tac.
  - inv_tac.
  - intros w H. exact H.
  - intros w H. exact H.
  - inv_tac.
Qed.

(** *** The aggregation cycle *)

Lemma inv_updateAttributesTopic : inv (updateAttributesTopic env).
Proof.
  intros w H. unfold updateAttributesTopic.
  set (w1 := match attributesUpdateTimeout w with Some t => clearTimeout t w | None => w end).
  assert (H1 : P w1).
  { subst w1. destruct (attributesUpdateTimeout w); [apply P_clear, H | exact H]. }
  destruct (is_connected w1); [apply P_cycle; [reflexivity | exact H1] | apply P_schedule, H1].
Qed.

Lemma minv_on_clean_summary res res2 : minv (on_clean_summary env res res2).
Proof.
  unfold on_clean_summary.
  apply (minv_bind_value (fun a => ∃ fs, a = VObj fs)).
  - apply minv_assemble_response.
  - apply assemble_response_object.
  - intros a [fs ->]. inv_tac.
Qed.

Lemma inv_log_schedule : inv (fun w => schedule env (emit LogError w)).
Proof. intros w H. apply P_schedule, P_emit; [apply not_attr_error | exact H]. Qed.

Lemma inv_react r s : inv (react env r s).
Proof.
  destruct (cycle_reaction r) eqn:Hr; [|apply inv_react_other, Hr].
  destruct r; try discriminate Hr; destruct s; simpl.
  - intros w H. apply P_cycle; [reflexivity | exact H].
  - apply inv_log_schedule.
  - apply inv_catch; [apply minv_on_clean_summary | apply inv_log_schedule].
  - apply inv_log_schedule.
Qed.

Lemma inv_settle p s : inv (settle env p s).
Proof.
  intros w H. unfold settle. destruct (reaction_of p w) as [r|]; [|exact H].
  apply inv_react. apply (P_drop p w H).
Qed.

Lemma inv_fire t : inv (fire env t).
Proof.
  intros w H. unfold fire. destruct (bool_decide _); [|exact H].
  apply inv_updateAttributesTopic. apply (P_fired t w H).
Qed.

Lemma minv_on_miio_status statusData : minv (on_miio_status env statusData).
Proof.
  unfold on_miio_status, updateAttributesTopicOnEvent.
  apply minv_bind; [apply minv_updateStatusTopic|]. intros _. inv_tac.
  apply inv_updateAttributesTopic.
Qed.

Lemma inv_step ev : inv (fun w => step env w ev).
Proof.
  intros w H. destruct ev as [fresh|c| |err|topic msg|sd|z|t|p s]; simpl.
  - apply inv_connect, H.
  - destruct (client w); [apply P_client, H | exact H].
  - apply inv_on_connect, H.
  - apply inv_on_subscribed, H.
  - apply inv_on_message, H.
  - apply inv_run; [apply minv_on_miio_status | exact H].
  - apply P_zone, H.
  - apply inv_fire, H.
  - apply inv_settle, H.
Qed.

Lemma inv_react_to s : inv (fun w => react_to env w s).
Proof.
  intros w H. destruct s as [ev|map|e]; simpl.
  - apply inv_step, H.
  - apply inv_on_valetudo_map, H.
  - apply inv_run; [apply minv_on_error | exact H].
Qed.


Lemma inv_constructor fresh z : P (initial z) → P (constructor env fresh z).
Proof. intros H. unfold constructor. apply inv_updateAttributesTopic, inv_connect, H. Qed.


End PlainInvariant.

(** ** The standardized state is derived from the native state *)


(** ** The attributes topic carries no repeats *)











(** ** The aggregation loop never stops *)

Lemma promises_wf_call op r w : promises_wf w → promises_wf (call_then op r w).
Proof.
  intros [Hnd Hlt]. unfold promises_wf. simpl. rewrite map_app. simpl. split.
  - apply NoDup_app. split; [exact Hnd|]. split; [|apply NoDup_singleton].
    intros x Hx Hin. apply list_elem_of_singleton in Hin. subst x.
    rewrite Forall_forall in Hlt. specialize (Hlt _ Hx). lia.
  - apply Forall_app. split.
    + eapply Forall_impl; [exact Hlt|]. simpl. intros; lia.
    + repeat constructor.
Qed.

Lemma promises_wf_drop p w : promises_wf w → promises_wf (drop_promise p w).
Proof.
  intros [Hnd Hlt]. unfold promises_wf, drop_promise. simpl.
  assert (Hsub : map fst (List.filter (fun pr => negb (Nat.eqb (fst pr) p)) (promises w))
                 `sublist_of` map fst (promises w)).
  { apply filter_map_sublist. }
  split.
  - eapply sublist_NoDup; eassumption.
  - apply Forall_forall. intros x Hx. rewrite Forall_forall in Hlt.
    apply Hlt. eapply elem_of_sublist; eassumption.
Qed.

Lemma promises_wf_react_to env w s : promises_wf w → promises_wf (react_to env w s).
Proof.
  apply (inv_react_to env promises_wf); try solve [intros; assumption].
  - intros op r w0 _. apply promises_wf_call.
  - intros op r w0 _. apply promises_wf_call.
  - apply promises_wf_drop.
  - intros w0 [Hnd Hlt]. split; [exact Hnd|]. simpl.
    eapply Forall_impl; [exact Hlt|]. simpl. intros; lia.
  - intros fs w0 H. unfold publish_if_changed. destruct (negb _); exact H.
Qed.

Lemma promises_wf_constructor env fresh z : promises_wf (constructor env fresh z).
Proof.
  apply (inv_constructor env promises_wf); try solve [intros; assumption].
  - intros op r w0 _. apply promises_wf_call.
  - intros w0 [Hnd Hlt]. split; [exact Hnd|]. simpl.
    eapply Forall_impl; [exact Hlt|]. simpl. intros; lia.
  - split; [apply NoDup_nil; exact I | constructor].
Qed.

(** *** What leaves the cycles alone *)

Lemma same_cycles_refl w : same_cycles w w.
Proof. repeat split. Qed.

Lemma same_cycles_trans w1 w2 w3 :
  same_cycles w1 w2 → same_cycles w2 w3 → same_cycles w1 w3.
Proof. intros (A1 & B1 & C1) (A2 & B2 & C2). repeat split; congruence. Qed.

Lemma same_cycles_live w w' : same_cycles w w' → live_cycles w' = live_cycles w.
Proof. intros (A & _ & C). unfold live_cycles. rewrite A, C. reflexivity. Qed.

Lemma cycles_call op r w :
  cycles_in_flight (call_then op r w)
  = (cycles_in_flight w + (if cycle_reaction r then 1 else 0))%nat.
Proof.
  unfold cycles_in_flight. simpl. rewrite List.filter_app, length_app. simpl.
  destruct (cycle_reaction r); reflexivity.
Qed.

Lemma same_cycles_call w0 op r w :
  cycle_reaction r = false → same_cycles w0 w → same_cycles w0 (call_then op r w).
Proof.
  intros Hr (A & B & C). repeat split; try assumption.
  rewrite cycles_call, Hr, C. lia.
Qed.

Lemma same_cycles_publish env w0 a w :
  same_cycles w0 w → same_cycles w0 (publish_if_changed env a w).
Proof. intros H. unfold publish_if_changed. destruct (negb _); exact H. Qed.

Ltac same_prims :=
  first [ solve [intros; assumption]
        | intros ? ? ? ?; apply same_cycles_call; assumption
        | intros ? ?; apply same_cycles_publish ].

Lemma drop_promise_cycles (ps : list (nat * Reaction)) (p : nat) (r : Reaction) :
  NoDup (map fst ps) →
  snd <$> List.find (fun pr => Nat.eqb (fst pr) p) ps = Some r →
  List.length (List.filter (fun pr => cycle_reaction (snd pr)) ps)
  = (List.length
       (List.filter (fun pr => cycle_reaction (snd pr))
          (List.filter (fun pr => negb (Nat.eqb (fst pr) p)) ps))
     + (if cycle_reaction r then 1 else 0))%nat.
Proof.
  induction ps as [|[q r'] ps IH]; intros Hnd Hfind; [discriminate Hfind|].
  simpl in Hnd. apply NoDup_cons in Hnd as [Hq Hnd]. simpl in Hfind |- *.
  destruct (Nat.eqb_spec q p) as [->|Hne]; simpl in *.
  - inversion Hfind; subst r'.
    assert (Hsame : List.filter (fun pr => negb (Nat.eqb (fst pr) p)) ps = ps).
    { clear -Hq. induction ps as [|[q' r''] ps IH]; [reflexivity|]. simpl in *.
      destruct (Nat.eqb_spec q' p) as [->|_]; simpl.
      - exfalso. apply Hq. apply list_elem_of_here.
      - f_equal. apply IH. intros H. apply Hq. apply list_elem_of_further, H. }
    rewrite Hsame. destruct (cycle_reaction r); simpl; lia.
  - specialize (IH Hnd Hfind). destruct (cycle_reaction r'); simpl; rewrite IH; lia.
Qed.

Lemma cycles_drop p r w :
  promises_wf w → reaction_of p w = Some r →
  cycles_in_flight w
  = (cycles_in_flight (drop_promise p w) + (if cycle_reaction r then 1 else 0))%nat.
Proof. intros [Hnd _] Hr. apply drop_promise_cycles; assumption. Qed.

(** *** The steps of a cycle *)

Lemma live_after_schedule env w1 :
  live_cycles (schedule env w1) = S (live_cycles w1)
  ∧ (timers w1 = [] → timers_remembered (schedule env w1)).
Proof.
  split.
  - unfold live_cycles, cycles_in_flight. simpl. rewrite length_app. simpl. lia.
  - intros Ht t Hin. simpl in Hin |- *. rewrite Ht in Hin.
    apply list_elem_of_singleton in Hin. subst t. reflexivity.
Qed.

Lemma live_after_cycle_call op r w1 :
  cycle_reaction r = true →
  live_cycles (call_then op r w1) = S (live_cycles w1)
  ∧ (timers w1 = [] → timers_remembered (call_then op r w1)).
Proof.
  intros Hr. split.
  - unfold live_cycles. rewrite cycles_call, Hr.
    change (timers (call_then op r w1)) with (timers w1). lia.
  - intros Ht t Hin. change (timers (call_then op r w1)) with (timers w1) in Hin.
    rewrite Ht in Hin. inversion Hin.
Qed.

Lemma live_after_update env u :
  (1 ≤ live_cycles (updateAttributesTopic env u))%nat
  ∧ (timers u = [] → cycles_in_flight u = 0%nat →
     live_cycles (updateAttributesTopic env u) = 1%nat
     ∧ timers_remembered (updateAttributesTopic env u)).
Proof.
  unfold updateAttributesTopic.
  set (w1 := match attributesUpdateTimeout u with Some t => clearTimeout t u | None => u end).
  assert (H1 : cycles_in_flight w1 = cycles_in_flight u
               ∧ (timers u = [] → timers w1 = [])).
  { subst w1. destruct (attributesUpdateTimeout u) as [t|]; [|auto].
    split; [reflexivity|]. simpl. intros ->. reflexivity. }
  clearbody w1. destruct H1 as [Hc Ht].
  assert (Hnext : ∀ w', live_cycles w' = S (live_cycles w1) →
                        (timers w1 = [] → timers_remembered w') →
                        (1 ≤ live_cycles w')%nat
                        ∧ (timers u = [] → cycles_in_flight u = 0%nat →
                           live_cycles w' = 1%nat ∧ timers_remembered w')).
  { intros w' Hl Hrem. split; [lia|]. intros Hu Hz. specialize (Ht Hu). split.
    - rewrite Hl. unfold live_cycles. rewrite Ht, Hc, Hz. reflexivity.
    - apply Hrem, Ht. }
  destruct (is_connected w1).
  - apply Hnext; apply live_after_cycle_call; reflexivity.
  - apply Hnext; apply live_after_schedule.
Qed.

Lemma summary_ends_with_schedule env res res2 w0 :
  ∃ w1,
    catch (on_clean_summary env res res2) (fun w => schedule env (emit LogError w)) w0
    = schedule env w1
    ∧ same_cycles w0 w1.
Proof.
  assert (Hasm : same_cycles w0 (fst (assemble_response env res res2 w0))).
  { apply (minv_assemble_response env (same_cycles w0)); try same_prims.
    apply same_cycles_refl. }
  unfold catch, on_clean_summary, bind, act.
  destruct (assemble_response env res res2 w0) as [w1 [a|]]; simpl in *.
  - eexists. split; [reflexivity|]. apply same_cycles_publish, Hasm.
  - eexists. split; [reflexivity|]. exact Hasm.
Qed.

(** A promise of the cycle settles: the cycle goes on, in flight or
    scheduled. *)
Lemma cycle_promise_settles env p r s w :
  promises_wf w → reaction_of p w = Some r → cycle_reaction r = true →
  live_cycles (settle env p s w) = live_cycles w
  ∧ (timers w = [] → timers_remembered (settle env p s w)).
Proof.
  intros Hwf Hr Hc.
  pose proof (cycles_drop p r w Hwf Hr) as Hdrop. rewrite Hc in Hdrop.
  assert (Hend : (∃ w1, settle env p s w = schedule env w1
                        ∧ same_cycles (drop_promise p w) w1)
                 ∨ (∃ res, settle env p s w
                           = call_then getCleanSummary (OnCleanSummary res) (drop_promise p w))).
  { unfold settle. rewrite Hr. fold (drop_promise p w).
    destruct r; try discriminate Hc; destruct s; simpl.
    - right. eexists. reflexivity.
    - left. eexists. split; [reflexivity|]. repeat split.
    - left. apply summary_ends_with_schedule.
    - left. eexists. split; [reflexivity|]. repeat split. }
  destruct Hend as [(w1 & -> & (A & B & C))|[res ->]].
  - destruct (live_after_schedule env w1) as [Hl Hrem]. split.
    + rewrite Hl. unfold live_cycles. rewrite A, C. simpl.
      unfold live_cycles. lia.
    + intros Ht. apply Hrem. rewrite A. exact Ht.
  - split.
    + unfold live_cycles. rewrite cycles_call. simpl. lia.
    + intros Ht t Hin. simpl in Hin. rewrite Ht in Hin. inversion Hin.
Qed.

(** A promise outside the cycle settles: the cycles are left alone. *)
Lemma other_promise_settles env p r s w :
  promises_wf w → reaction_of p w = Some r → cycle_reaction r = false →
  same_cycles w (settle env p s w).
Proof.
  intros Hwf Hr Hc.
  pose proof (cycles_drop p r w Hwf Hr) as Hdrop. rewrite Hc in Hdrop.
  unfold settle. rewrite Hr. fold (drop_promise p w).
  apply (inv_react_other env (same_cycles w)); try same_prims.
  repeat split. lia.
Qed.

(** A status event leaves the cycles alone or starts a cycle. *)
Lemma status_event_cases env statusData w :
  same_cycles w (run (on_miio_status env statusData) w)
  ∨ ∃ u, run (on_miio_status env statusData) w = updateAttributesTopic env u
         ∧ same_cycles w u.
Proof.
  assert (Hst : same_cycles w (fst (updateStatusTopic env statusData w))).
  { apply (minv_updateStatusTopic env (same_cycles w)); try same_prims.
    apply same_cycles_refl. }
  unfold run, on_miio_status, updateAttributesTopicOnEvent, bind, lift, act.
  destruct (updateStatusTopic env statusData w) as [w1 [[]|]]; simpl in *;
    [|left; exact Hst].
  destruct (get_prop statusData "state") as [st|]; simpl; [|left; exact Hst].
  right. eexists. split; [reflexivity|]. exact Hst.
Qed.

(** Every other stimulus leaves the cycles alone. *)
Lemma quiet_stimulus env w s :
  promises_wf w →
  match s with
  | Loop (MiioStatus _) => True
  | Loop (TimerFired t) => t ∉ timers w → same_cycles w (react_to env w s)
  | Loop (Settles p _) =>
      match reaction_of p w with
      | Some r => cycle_reaction r = false → same_cycles w (react_to env w s)
      | None => same_cycles w (react_to env w s)
      end
  | _ => same_cycles w (react_to env w s)
  end.
Proof.
  intros Hwf. destruct s as [[fresh|c| |err|topic msg|sd|z|t|p s]|map|e]; simpl.
  - apply (inv_connect env (same_cycles w)); try same_prims. apply same_cycles_refl.
  - destruct (client w); repeat split.
  - apply (inv_on_connect env (same_cycles w)); try same_prims. apply same_cycles_refl.
  - apply (inv_on_subscribed env (same_cycles w)); try same_prims. apply same_cycles_refl.
  - apply (inv_on_message env (same_cycles w)); try same_prims. apply same_cycles_refl.
  - exact I.
  - repeat split.
  - intros Hnot. unfold fire. rewrite bool_decide_eq_false_2 by exact Hnot.
    apply same_cycles_refl.
  - destruct (reaction_of p w) as [r|] eqn:Hr.
    + intros Hc. eapply other_promise_settles; eassumption.
    + unfold settle. rewrite Hr. apply same_cycles_refl.
  - apply (inv_on_valetudo_map env (same_cycles w)); try same_prims.
    apply same_cycles_refl.
  - apply (inv_run (same_cycles w)).
    + apply (minv_on_error env (same_cycles w)); try same_prims.
    + apply same_cycles_refl.
Qed.

Lemma same_cycles_remembered w w' :
  same_cycles w w' → timers_remembered w → timers_remembered w'.
Proof. intros (A & B & _) H t Hin. rewrite A in Hin. rewrite B. apply H, Hin. Qed.

Lemma fired_is_update env t w :
  t ∈ timers w → fire env t w = updateAttributesTopic env (drop_timer t w).
Proof. intros H. unfold fire. rewrite bool_decide_eq_true_2 by exact H. reflexivity. Qed.

Lemma live_step env w s :
  promises_wf w → (1 ≤ live_cycles w)%nat → (1 ≤ live_cycles (react_to env w s))%nat.
Proof.
  intros Hwf Hlive. pose proof (quiet_stimulus env w s Hwf) as Hq.
  destruct s as [[fresh|c| |err|topic msg|sd|z|t|p s]|map|e];
    try (rewrite (same_cycles_live _ _ Hq); exact Hlive).
  - simpl. destruct (status_event_cases env sd w) as [H|(u & -> & _)].
    + rewrite (same_cycles_live _ _ H). exact Hlive.
    + apply live_after_update.
  - destruct (decide (t ∈ timers w)) as [Hin|Hnot].
    + simpl. rewrite (fired_is_update env t w Hin). apply live_after_update.
    + rewrite (same_cycles_live _ _ (Hq Hnot)). exact Hlive.
  - simpl in *. destruct (reaction_of p w) as [r|] eqn:Hr.
    + destruct (cycle_reaction r) eqn:Hc.
      * destruct (cycle_promise_settles env p r s w Hwf Hr Hc) as [-> _]. exact Hlive.
      * rewrite (same_cycles_live _ _ (Hq eq_refl)). exact Hlive.
    + rewrite (same_cycles_live _ _ Hq). exact Hlive.
Qed.

Lemma constructor_live env fresh z :
  live_cycles (constructor env fresh z) = 1%nat
  ∧ timers_remembered (constructor env fresh z).
Proof.
  unfold constructor. apply live_after_update.
  - unfold connect. destruct (should_connect (initial z)); reflexivity.
  - unfold connect. destruct (should_connect (initial z)); reflexivity.
Qed.

(** X16: the aggregation loop never stops by itself: in every world the
    client can reach, whatever the device, the broker and the timers did, at
    least one aggregation cycle is scheduled (a pending timer) or in flight
    (waiting for the consumable status or for the clean summary). *)
Theorem aggregation_loop_never_stops
    (env : Env) (fresh : ClientHandle) (z : jsval) (ss : list Stimulus) :
  (1 ≤ live_cycles (run_all env (constructor env fresh z) ss))%nat.
Proof.
  assert (Hgen : ∀ ss w, promises_wf w → (1 ≤ live_cycles w)%nat →
                         (1 ≤ live_cycles (run_all env w ss))%nat).
  { clear ss. induction ss as [|s ss IH]; intros w Hwf Hlive; [exact Hlive|].
    simpl. apply IH; [apply promises_wf_react_to, Hwf | apply live_step; assumption]. }
  apply Hgen; [apply promises_wf_constructor|].
  destruct (constructor_live env fresh z) as [-> _]. lia.
Qed.

Lemma live_one_step env w s :
  is_status_event s = false →
  promises_wf w → live_cycles w = 1%nat → timers_remembered w →
  live_cycles (react_to env w s) = 1%nat ∧ timers_remembered (react_to env w s).
Proof.
  intros Hs Hwf Hlive Hrem. pose proof (quiet_stimulus env w s Hwf) as Hq.
  assert (Hquiet : ∀ w', same_cycles w w' → live_cycles w' = 1%nat ∧ timers_remembered w').
  { intros w' H. split; [rewrite (same_cycles_live _ _ H); exact Hlive|].
    eapply same_cycles_remembered; eassumption. }
  destruct s as [[fresh|c| |err|topic msg|sd|z|t|p s]|map|e];
    try (apply Hquiet; exact Hq); try discriminate Hs.
  - destruct (decide (t ∈ timers w)) as [Hin|Hnot]; [|apply Hquiet, Hq, Hnot].
    simpl. rewrite (fired_is_update env t w Hin).
    assert (Hone : timers w = [t] ∧ cycles_in_flight w = 0%nat).
    { unfold live_cycles in Hlive.
      destruct (timers w) as [|t' [|t'' ts]] eqn:Et; simpl in Hlive.
      - inversion Hin.
      - split; [|lia]. apply list_elem_of_singleton in Hin. subst t'. reflexivity.
      - lia. }
    destruct Hone as [Ht Hc].
    apply live_after_update.
    + unfold drop_timer. simpl. rewrite Ht.
      rewrite filter_cons_False by (intros H; apply H; reflexivity). reflexivity.
    + exact Hc.
  - simpl in *. destruct (reaction_of p w) as [r|] eqn:Hr; [|apply Hquiet, Hq].
    destruct (cycle_reaction r) eqn:Hc; [|apply Hquiet, Hq; reflexivity].
    destruct (cycle_promise_settles env p r s w Hwf Hr Hc) as [Hl Ht]. split.
    + rewrite Hl. exact Hlive.
    + apply Ht. pose proof (cycles_drop p r w Hwf Hr) as Hd. rewrite Hc in Hd.
      unfold live_cycles in Hlive. destruct (timers w); [reflexivity|].
      simpl in Hlive. lia.
Qed.

(** X17: as long as no status event arrives, exactly one aggregation cycle
    is scheduled or in flight at any time, and a pending timer is the one
    the client remembers, so that the cycle can be cancelled. Overlapping
    cycles need a status event. *)
Theorem one_cycle_without_status_events
    (env : Env) (fresh : ClientHandle) (z : jsval) (ss : list Stimulus) :
  Forall (fun s => is_status_event s = false) ss →
  live_cycles (run_all env (constructor env fresh z) ss) = 1%nat
  ∧ timers_remembered (run_all env (constructor env fresh z) ss).
Proof.
  intros Hss.
  assert (Hgen : ∀ ss w, Forall (fun s => is_status_event s = false) ss →
                         promises_wf w → live_cycles w = 1%nat → timers_remembered w →
                         live_cycles (run_all env w ss) = 1%nat
                         ∧ timers_remembered (run_all env w ss)).
  { clear ss Hss. induction ss as [|s ss IH]; intros w Hss Hwf Hlive Hrem; [auto|].
    apply Forall_cons in Hss as [Hs Hss].
    destruct (live_one_step env w s Hs Hwf Hlive Hrem) as [Hl Hr].
    simpl. apply IH; [exact Hss | apply promises_wf_react_to, Hwf | exact Hl | exact Hr]. }
  destruct (constructor_live env fresh z) as [Hl Hr].
  apply Hgen; [exact Hss | apply promises_wf_constructor | exact Hl | exact Hr].
Qed.

Lemma one_cycle_without_status_events_witness :
  live_cycles
    (run_all sample_env (constructor sample_env offline VUndef)
       [ Loop (ClientChanged online); Loop (TimerFired 0);
         Loop (Message "valetudo/rockrobo/command" "start");
         Loop (Settles 1 (Reject VUndef)); ValetudoMap VNull ]) = 1%nat
  ∧ timers_remembered
      (run_all sample_env (constructor sample_env offline VUndef)
         [ Loop (ClientChanged online); Loop (TimerFired 0);
           Loop (Message "valetudo/rockrobo/command" "start");
           Loop (Settles 1 (Reject VUndef)); ValetudoMap VNull ]).
Proof.
  apply (one_cycle_without_status_events sample_env offline VUndef).
  repeat constructor.
Defined.

(** ** What a failed cycle and an inbound message never do *)

(** X18: no partial attributes document is ever published. When a step of
    an aggregation cycle logs an error (the consumable fetch or the summary
    fetch failed, or the summary callback threw on malformed data), that
    step publishes nothing and leaves the stored snapshot as it was. *)
Theorem failed_cycle_publishes_nothing
    (env : Env) (p : nat) (r : Reaction) (s : Settled) (w : World) :
  reaction_of p w = Some r →
  cycle_reaction r = true →
  LogError ∈ added w (settle env p s w) →
  Forall (fun e => ¬ is_publish e) (added w (settle env p s w))
  ∧ last_attributes (settle env p s w) = last_attributes w.
Proof.
  intros Hr Hc Hlog. unfold settle in *. rewrite Hr in *.
  set (w0 := set_promises _ w) in *.
  change (added w) with (added w0) in *.
  change (last_attributes w) with (last_attributes w0).
  assert (Hfail : ∀ w1, extends (fun e => ¬ is_publish e) w0 w1 →
                        last_attributes w1 = last_attributes w0 →
                        Forall (fun e => ¬ is_publish e)
                          (added w0 (schedule env (emit LogError w1)))
                        ∧ last_attributes (schedule env (emit LogError w1))
                          = last_attributes w0).
  { intros w1 (l & Hl & Fl) Ha. split; [|exact Ha].
    erewrite added_app; [|simpl; rewrite Hl, <- !app_assoc; reflexivity].
    apply Forall_app. split; [exact Fl|]. repeat constructor; intros H; exact H. }
  destruct r; try discriminate Hc; destruct s; simpl in *.
  - exfalso. rewrite added_call_then in Hlog.
    apply list_elem_of_singleton in Hlog. discriminate Hlog.
  - apply (Hfail w0); [apply extends_refl | reflexivity].
  - pose proof (mkeeps_assemble_response (fun e => ∃ x, e = Call (getCleanRecord x))
                  env res value (fun x => ex_intro _ x eq_refl) w0) as Hasm.
    assert (Hattr : last_attributes (fst (assemble_response env res value w0))
                    = last_attributes w0).
    { apply (minv_assemble_response env (fun w' => last_attributes w' = last_attributes w0));
        try solve [intros; assumption]. reflexivity. }
    unfold catch, on_clean_summary, bind, act in *.
    destruct (assemble_response env res value w0) as [w1 [a|]]; simpl in *.
    + exfalso.
      assert (Hext : extends (fun e => e ≠ LogError) w0
                       (schedule env (publish_if_changed env a w1))).
      { apply (extends_trans _ w0 w1);
          [|apply (extends_trans _ w1 (publish_if_changed env a w1))].
        - destruct Hasm as (l & Hl & Fl). exists l. split; [exact Hl|].
          eapply Forall_impl; [exact Fl|]. intros e [x ->]. discriminate.
        - unfold publish_if_changed.
          destruct (negb (bool_decide (stringify a = stringify (last_attributes w1))));
            [|apply extends_refl].
          eexists [_]. split; [reflexivity|]. repeat constructor. discriminate.
        - eexists [_]. split; [reflexivity|]. repeat constructor. discriminate. }
      exact (extends_added _ _ _ _ Hext Hlog eq_refl).
    + apply (Hfail w1); [|exact Hattr].
      destruct Hasm as (l & Hl & Fl). exists l. split; [exact Hl|].
      eapply Forall_impl; [exact Fl|]. intros e [x ->] H. exact H.
  - apply (Hfail w0); [apply extends_refl | reflexivity].
Qed.

Lemma failed_cycle_publishes_nothing_witness :
  Forall (fun e => ¬ is_publish e)
    (added before_first_summary
       (settle sample_env 2 (Resolve VNull) before_first_summary))
  ∧ last_attributes (settle sample_env 2 (Resolve VNull) before_first_summary)
    = last_attributes before_first_summary.
Proof.
  apply (failed_cycle_publishes_nothing sample_env 2
           (OnCleanSummary sample_consumables) (Resolve VNull) before_first_summary).
  - reflexivity.
  - reflexivity.
  - vm_compute. apply list_elem_of_here.
Defined.

(** X19: an inbound message never publishes and never touches the
    aggregation loop: whatever its topic and payload, it only adds device
    calls and log lines to the trace, and it leaves the timers, the timer
    handle, the cycles in flight, the stored snapshot and the cached
    last-run record as they were. *)
Theorem message_only_calls_or_logs (env : Env) (topic msg : string) (w : World) :
  Forall is_call_or_log (added w (on_message env topic msg w))
  ∧ same_cycles w (on_message env topic msg w)
  ∧ last_attributes (on_message env topic msg w) = last_attributes w
  ∧ last_run_stats (on_message env topic msg w) = last_run_stats w.
Proof.
  split; [|split; [|split]].
  - destruct (keeps_on_message env is_call_or_log) with (topic := topic) (msg := msg) (w := w)
      as (l & Hl & Fl); try (intros; exact I).
    rewrite (added_app _ _ _ Hl). exact Fl.
  - apply (inv_on_message env (same_cycles w)); try same_prims. apply same_cycles_refl.
  - apply (inv_on_message env (fun w' => last_attributes w' = last_attributes w));
      try solve [intros; assumption]. reflexivity.
  - apply (inv_on_message env (fun w' => last_run_stats w' = last_run_stats w));
      try solve [intros; assumption]. reflexivity.
Qed.
